(** * Shallow embedding of packages/scm/src/browser/scm-service.ts

    The file models the SCM registry ([ScmService]), the repository wrapper
    ([ScmRepositoryImpl]) and the input model ([ScmInputImpl]).

    Conventions of the embedding.
    - JavaScript objects that are compared or shared by reference live in a
      store: repository wrappers in [objects], arrays in [arrays].  A
      reference is the key of its object.
    - A method is a function from the state before the call to the
      completion of the call (normal return or thrown error), the state
      after it and the notifications it emitted, in order.  A thrown error
      keeps the mutations made before the [throw].
    - [Emitter] comes from @theia/core and is not part of the file.  "The
      emitter [e] fires [x]" is recorded as one entry of the emitted list;
      listeners are outside the model (they neither throw nor call back
      into the registry while a notification is delivered).
    - [provider.dispose()] is a call into the provider, an external object:
      it is recorded as [ProviderDisposed] and returns normally, as the
      [Disposable] contract ([dispose(): void]) has it.
    - [ScmService.dispose()] disposes the three emitters of the registry and
      touches none of its fields; it is left out. *)

From stdpp Require Import gmap strings list fin_maps.

(** ** Completions and the method monad *)

(** [new Error(message)]. *)
Inductive JsError : Type :=
  | Error (message : string).

(** How a call completes.  [Dangling] is the completion of a method whose
    receiver is not an object of the store; TypeScript cannot form such a
    reference, so no call of the source completes this way. *)
Inductive Completion (A : Type) : Type :=
  | Return (a : A)
  | Throw (e : JsError)
  | Dangling.
Arguments Return {A} a.
Arguments Throw {A} e.
Arguments Dangling {A}.

(** A method over a state [S] emitting notifications of type [E]. *)
Definition M (S E A : Type) : Type := S → Completion A * S * list E.

Definition ret {S E A} (a : A) : M S E A := λ s, (Return a, s, []).

Definition bind {S E A B} (k : A → M S E B) (m : M S E A) : M S E B :=
  λ s, match m s with
       | (Return a, s1, ev1) =>
           match k a s1 with
           | (c, s2, ev2) => (c, s2, ev1 ++ ev2)
           end
       | (Throw e, s1, ev1) => (Throw e, s1, ev1)
       | (Dangling, s1, ev1) => (Dangling, s1, ev1)
       end.

(** [x ← m; k] and [m;; k] are stdpp's notations for [bind]. *)
#[global] Instance M_ret {S E} : MRet (M S E) := @ret S E.
#[global] Instance M_bind {S E} : MBind (M S E) := @bind S E.

Definition throw {S E A} (e : JsError) : M S E A := λ s, (Throw e, s, []).
Definition get {S E} : M S E S := λ s, (Return s, s, []).
Definition modify {S E} (f : S → S) : M S E unit := λ s, (Return tt, f s, []).
(** [emitter.fire(x)], recorded. *)
Definition fire {S E} (x : E) : M S E unit := λ s, (Return tt, s, [x]).

Definition completion {S E A} (r : Completion A * S * list E) : Completion A := r.1.1.
Definition state_after {S E A} (r : Completion A * S * list E) : S := r.1.2.
Definition emitted {S E A} (r : Completion A * S * list E) : list E := r.2.

(** ** InputValidation and InputValidator.Result.equal *)

(** ['info' | 'success' | 'warning' | 'error'] *)
Inductive ValidationType : Type := info | success | warning | error.

Definition ValidationType_eqb (a b : ValidationType) : bool :=
  match a, b with
  | info, info | success, success | warning, warning | error, error => true
  | _, _ => false
  end.

Record InputValidation : Type := mkInputValidation {
  message : string;
  type : ValidationType;
}.

(** [(value: string): Promise<InputValidation | undefined>]: the value the
    promise resolves to. *)
Definition InputValidator : Type := string → option InputValidation.

Module InputValidator.
Module Result.
(** [Result | undefined]: [None] is [undefined]. *)
Definition t : Type := option InputValidation.

(** [left === right] where at least one side is [undefined]. *)
Definition strict_eq_undefined (left right : t) : bool :=
  match left, right with
  | None, None => true
  | _, _ => false
  end.

(** An object is truthy, [undefined] is falsy: [left && right] holds
    exactly when both are present. *)
Definition equal (left right : t) : bool :=
  match left, right with
  | Some l, Some r =>
      String.eqb (message l) (message r) && ValidationType_eqb (type l) (type r)
  | _, _ => strict_eq_undefined left right
  end.
End Result.
End InputValidator.

(** ** ScmInputImpl *)

Record ScmInputImpl : Type := mkScmInputImpl {
  _value : string;
  _placeholder : string;
  _visible : bool;
  _validateInput : InputValidator;
}.

(** The four emitters of an input model. *)
Inductive InputEvent : Type :=
  | OnDidChange (value : string)
  | OnDidChangePlaceholder (placeholder : string)
  | OnDidChangeVisibility (visible : bool)
  | OnDidChangeValidateInput.

Definition new_ScmInputImpl : ScmInputImpl :=
  {| _value := ""%string; _placeholder := ""%string; _visible := true;
     _validateInput := λ _, None |}.

Module Input.
Abbreviation Method := (M ScmInputImpl InputEvent).

Definition with_value (value : string) (this : ScmInputImpl) : ScmInputImpl :=
  {| _value := value; _placeholder := _placeholder this;
     _visible := _visible this; _validateInput := _validateInput this |}.

Definition with_placeholder (placeholder : string) (this : ScmInputImpl) : ScmInputImpl :=
  {| _value := _value this; _placeholder := placeholder;
     _visible := _visible this; _validateInput := _validateInput this |}.

Definition with_visible (visible : bool) (this : ScmInputImpl) : ScmInputImpl :=
  {| _value := _value this; _placeholder := _placeholder this;
     _visible := visible; _validateInput := _validateInput this |}.

Definition with_validateInput (validateInput : InputValidator) (this : ScmInputImpl)
    : ScmInputImpl :=
  {| _value := _value this; _placeholder := _placeholder this;
     _visible := _visible this; _validateInput := validateInput |}.

Definition get_value : Method string :=
  this ← get; mret (_value this).

(** [===] on strings is equality of their contents. *)
Definition set_value (value : string) : Method unit :=
  this ← get;
  if String.eqb (_value this) value then mret tt
  else
    modify (with_value value);;
    fire (OnDidChange value).

Definition get_placeholder : Method string :=
  this ← get; mret (_placeholder this).

Definition set_placeholder (placeholder : string) : Method unit :=
  modify (with_placeholder placeholder);;
  fire (OnDidChangePlaceholder placeholder).

Definition get_visible : Method bool :=
  this ← get; mret (_visible this).

Definition set_visible (visible : bool) : Method unit :=
  modify (with_visible visible);;
  fire (OnDidChangeVisibility visible).

Definition get_validateInput : Method InputValidator :=
  this ← get; mret (_validateInput this).

Definition set_validateInput (validateInput : InputValidator) : Method unit :=
  modify (with_validateInput validateInput);;
  fire OnDidChangeValidateInput.
End Input.

(** ** ScmProvider

    The registry reads [id] and calls [dispose]; the other members
    (groups, events, commands) are passed through to its clients and are
    left out. *)

Record ScmProvider : Type := mkScmProvider {
  label : string;
  id : string;
  handle : Z;
  contextValue : string;
  rootUri : option string;
}.

(** ** The store: ScmService, ScmRepositoryImpl objects and arrays *)

(** A reference to a [ScmRepositoryImpl] object; [===] on wrappers is
    equality of references. *)
Abbreviation RepoRef := nat.
(** A reference to an array of wrappers. *)
Abbreviation ArrayRef := nat.

(** The [disposable] of a wrapper is the closure built by
    [registerScmProvider]; it captures [repository], the wrapper itself, and
    [provider], so the two fields below determine it (see
    [disposable_dispose]). *)
Record ScmRepositoryImpl : Type := mkScmRepositoryImpl {
  provider : ScmProvider;
  _selected : bool;
  input : ScmInputImpl;
}.

(** The fields of the [ScmService] instance, then the two stores. *)
Record State : Type := mkState {
  providerIds : gset string;
  _repositories : ArrayRef;
  _selectedRepository : option RepoRef;
  arrays : gmap nat (list RepoRef);
  objects : gmap nat ScmRepositoryImpl;
}.

Definition with_providerIds (f : gset string → gset string) (s : State) : State :=
  {| providerIds := f (providerIds s); _repositories := _repositories s;
     _selectedRepository := _selectedRepository s;
     arrays := arrays s; objects := objects s |}.

Definition with_selectedRepository (v : option RepoRef) (s : State) : State :=
  {| providerIds := providerIds s; _repositories := _repositories s;
     _selectedRepository := v;
     arrays := arrays s; objects := objects s |}.

Definition with_arrays (f : gmap nat (list RepoRef) → gmap nat (list RepoRef))
    (s : State) : State :=
  {| providerIds := providerIds s; _repositories := _repositories s;
     _selectedRepository := _selectedRepository s;
     arrays := f (arrays s); objects := objects s |}.

Definition with_objects (f : gmap nat ScmRepositoryImpl → gmap nat ScmRepositoryImpl)
    (s : State) : State :=
  {| providerIds := providerIds s; _repositories := _repositories s;
     _selectedRepository := _selectedRepository s;
     arrays := arrays s; objects := f (objects s) |}.

(** Everything a call can emit.  The first three are the registry's
    notifications, the next two a wrapper's, [OnInput] is a notification of
    a wrapper's input model, and [ProviderDisposed] records the call of
    [provider.dispose()]. *)
Inductive Event : Type :=
  | OnDidChangeSelectedRepositories (repository : option RepoRef)
  | OnDidAddRepository (repository : RepoRef)
  | OnDidRemoveRepository (repository : RepoRef)
  | OnDidFocus (this : RepoRef)
  | OnDidChangeSelection (this : RepoRef) (selected : bool)
  | OnInput (this : RepoRef) (e : InputEvent)
  | ProviderDisposed (provider : ScmProvider).

Definition is_registry_notification (e : Event) : bool :=
  match e with
  | OnDidChangeSelectedRepositories _ | OnDidAddRepository _
  | OnDidRemoveRepository _ => true
  | _ => false
  end.

Abbreviation Method := (M State Event).

(** *** Store primitives *)

Definition deref (r : RepoRef) : Method ScmRepositoryImpl :=
  λ s, match objects s !! r with
       | Some o => (Return o, s, [])
       | None => (Dangling, s, [])
       end.

Definition deref_array (a : ArrayRef) : Method (list RepoRef) :=
  λ s, match arrays s !! a with
       | Some l => (Return l, s, [])
       | None => (Dangling, s, [])
       end.

(** [new ScmRepositoryImpl(provider, disposable)]: a new object, with
    [_selected = false] and [input = new ScmInputImpl()]. *)
Definition new_ScmRepositoryImpl (provider : ScmProvider) : Method RepoRef :=
  s ← get;
  let r := fresh (dom (objects s)) in
  modify (with_objects <[r := {| provider := provider; _selected := false;
                                 input := new_ScmInputImpl |}]>);;
  mret r.

(** An array literal: a new array object holding [l]. *)
Definition new_array (l : list RepoRef) : Method ArrayRef :=
  s ← get;
  let a := fresh (dom (arrays s)) in
  modify (with_arrays <[a := l]>);;
  mret a.

(** [a.push(x)] *)
Definition array_push (a : ArrayRef) (x : RepoRef) : Method unit :=
  l ← deref_array a;
  modify (with_arrays <[a := l ++ [x]]>).

(** [a.indexOf(x)]: the first index holding [x], [-1] when there is none. *)
Definition indexOf (l : list RepoRef) (x : RepoRef) : Z :=
  match list_find (λ y, y = x) l with
  | Some (i, _) => Z.of_nat i
  | None => (-1)%Z
  end.

(** [a.splice(index, 1)] for [0 <= index]: drops the element at [index]. *)
Definition array_splice1 (a : ArrayRef) (index : nat) : Method unit :=
  l ← deref_array a;
  modify (with_arrays <[a := delete index l]>).

(** ** ScmService *)

(** The state after [new ScmService()]: the array literal [[]] of the
    field initialiser is the first array of the store. *)
Definition new_ScmService : State :=
  {| providerIds := ∅; _repositories := 0; _selectedRepository := None;
     arrays := {[0 := []]}; objects := ∅ |}.

(** [get repositories()]: [[...this._repositories]] *)
Definition get_repositories : Method ArrayRef :=
  this ← get;
  l ← deref_array (_repositories this);
  new_array l.

(** [get selectedRepository()] *)
Definition get_selectedRepository : Method (option RepoRef) :=
  this ← get; mret (_selectedRepository this).

(** [set selectedRepository(repository)] *)
Definition set_selectedRepository (repository : option RepoRef) : Method unit :=
  modify (with_selectedRepository repository);;
  fire (OnDidChangeSelectedRepositories repository).

(** The closure passed to [Disposable.create] in [registerScmProvider],
    with its captured variables as arguments. *)
Definition disposable_dispose (repository : RepoRef) (provider : ScmProvider)
    : Method unit :=
  this ← get;
  repositories ← deref_array (_repositories this);
  let index := indexOf repositories repository in
  if (index <? 0)%Z then mret tt
  else
    modify (with_providerIds (λ ids, ids ∖ {[id provider]}));;
    array_splice1 (_repositories this) (Z.to_nat index);;
    fire (OnDidRemoveRepository repository).

Definition already_exists (provider : ScmProvider) : JsError :=
  Error ("SCM Provider " +:+ id provider +:+ " already exists.").

Definition registerScmProvider (provider : ScmProvider) : Method RepoRef :=
  this ← get;
  if decide (id provider ∈ providerIds this) then throw (already_exists provider)
  else
    modify (with_providerIds (λ ids, ids ∪ {[id provider]}));;
    repository ← new_ScmRepositoryImpl provider;
    array_push (_repositories this) repository;;
    fire (OnDidAddRepository repository);;
    repositories ← deref_array (_repositories this);
    (if decide (length repositories = 1)
     then set_selectedRepository (Some repository)
     else mret tt);;
    mret repository.

(** ** ScmRepositoryImpl *)

Module Repository.
Definition with_selected (selected : bool) (o : ScmRepositoryImpl) : ScmRepositoryImpl :=
  {| provider := provider o; _selected := selected; input := input o |}.

Definition with_input (i : ScmInputImpl) (o : ScmRepositoryImpl) : ScmRepositoryImpl :=
  {| provider := provider o; _selected := _selected o; input := i |}.

(** [get selected()] *)
Definition get_selected (this : RepoRef) : Method bool :=
  o ← deref this; mret (_selected o).

Definition focus (this : RepoRef) : Method unit :=
  _ ← deref this; fire (OnDidFocus this).

Definition setSelected (this : RepoRef) (selected : bool) : Method unit :=
  o ← deref this;
  modify (with_objects <[this := with_selected selected o]>);;
  fire (OnDidChangeSelection this selected).

Definition dispose (this : RepoRef) : Method unit :=
  o ← deref this;
  disposable_dispose this (provider o);;
  fire (ProviderDisposed (provider o)).

(** [this.input.m(...)]: a method of the input model of the wrapper. *)
Definition on_input {A} (this : RepoRef) (m : Input.Method A) : Method A :=
  λ s, match objects s !! this with
       | Some o =>
           match m (input o) with
           | (c, i, ev) =>
               (c, with_objects <[this := with_input i o]> s, OnInput this <$> ev)
           end
       | None => (Dangling, s, [])
       end.
End Repository.

(** The sequence held by the internal array, [[]] if the array is missing. *)
Definition repositories_of (s : State) : list RepoRef :=
  default [] (arrays s !! _repositories s).

(** ** Calls of the public interface and the states they reach *)

Inductive Call : Type :=
  | CallRegisterScmProvider (provider : ScmProvider)
  | CallGetRepositories
  | CallGetSelectedRepository
  | CallSetSelectedRepository (repository : option RepoRef)
  | CallFocus (this : RepoRef)
  | CallGetSelected (this : RepoRef)
  | CallSetSelected (this : RepoRef) (selected : bool)
  | CallDispose (this : RepoRef)
  | CallSetValue (this : RepoRef) (value : string)
  | CallSetPlaceholder (this : RepoRef) (placeholder : string)
  | CallSetVisible (this : RepoRef) (visible : bool)
  | CallSetValidateInput (this : RepoRef) (validateInput : InputValidator).

Definition call (c : Call) : Method unit :=
  match c with
  | CallRegisterScmProvider p => registerScmProvider p;; mret tt
  | CallGetRepositories => get_repositories;; mret tt
  | CallGetSelectedRepository => get_selectedRepository;; mret tt
  | CallSetSelectedRepository v => set_selectedRepository v
  | CallFocus r => Repository.focus r
  | CallGetSelected r => Repository.get_selected r;; mret tt
  | CallSetSelected r b => Repository.setSelected r b
  | CallDispose r => Repository.dispose r
  | CallSetValue r v => Repository.on_input r (Input.set_value v)
  | CallSetPlaceholder r p => Repository.on_input r (Input.set_placeholder p)
  | CallSetVisible r b => Repository.on_input r (Input.set_visible b)
  | CallSetValidateInput r f => Repository.on_input r (Input.set_validateInput f)
  end.

(** The wrapper references a call mentions. *)
Definition refs_of (c : Call) : list RepoRef :=
  match c with
  | CallRegisterScmProvider _ | CallGetRepositories | CallGetSelectedRepository
  | CallSetSelectedRepository None => []
  | CallSetSelectedRepository (Some r)
  | CallFocus r | CallGetSelected r | CallSetSelected r _ | CallDispose r
  | CallSetValue r _ | CallSetPlaceholder r _ | CallSetVisible r _
  | CallSetValidateInput r _ => [r]
  end.

(** A caller can only pass references to wrappers that exist. *)
Definition well_typed (s : State) (c : Call) : Prop :=
  ∀ r, r ∈ refs_of c → is_Some (objects s !! r).

(** The states reached from [new ScmService()] by calls that satisfy
    [allowed]. *)
Inductive reachable_by (allowed : State → Call → Prop) : State → Prop :=
  | reachable_new : reachable_by allowed new_ScmService
  | reachable_call s c :
      reachable_by allowed s → well_typed s c → allowed s c →
      reachable_by allowed (state_after (call c s)).

Definition reachable : State → Prop := reachable_by (λ _ _, True).

(** Running a list of calls, whatever their completions (a caller may
    catch an error and go on). *)
Fixpoint run (cs : list Call) (s : State) : State :=
  match cs with
  | [] => s
  | c :: cs => run cs (state_after (call c s))
  end.

(** ** States after a registration and after an unregistration *)

(** The state after a successful registration into a registry whose
    sequence is [l]. *)
Definition registered (provider : ScmProvider) (l : list RepoRef) (s : State) : State :=
  let r := fresh (dom (objects s)) in
  {| providerIds := providerIds s ∪ {[id provider]};
     _repositories := _repositories s;
     _selectedRepository :=
       match l with [] => Some r | _ :: _ => _selectedRepository s end;
     arrays := <[_repositories s := l ++ [r]]> (arrays s);
     objects := <[r := {| provider := provider; _selected := false;
                          input := new_ScmInputImpl |}]> (objects s) |}.

(** The state after the closure removed [repository] from the sequence
    [l]. *)
Definition unregistered (repository : RepoRef) (provider : ScmProvider)
    (l : list RepoRef) (s : State) : State :=
  {| providerIds := providerIds s ∖ {[id provider]};
     _repositories := _repositories s;
     _selectedRepository := _selectedRepository s;
     arrays := <[_repositories s := delete (Z.to_nat (indexOf l repository)) l]> (arrays s);
     objects := objects s |}.

(** ** Invariants of the reachable states *)

(** The id of the provider of the wrapper [r], if [r] exists. *)
Definition id_of (s : State) (r : RepoRef) : option string :=
  (λ o, id (provider o)) <$> objects s !! r.

Record wf (s : State) : Prop := mk_wf {
  (** the internal array exists *)
  wf_array : is_Some (arrays s !! _repositories s);
  (** no wrapper occurs twice in the sequence *)
  wf_nodup : NoDup (repositories_of s);
  (** the wrappers of the sequence exist *)
  wf_alloc : ∀ r, r ∈ repositories_of s → is_Some (id_of s r);
  (** [providerIds] holds exactly the ids of the wrappers of the sequence *)
  wf_ids : ∀ x, x ∈ providerIds s ↔ ∃ r, r ∈ repositories_of s ∧ id_of s r = Some x;
  (** no two wrappers of the sequence share a provider id *)
  wf_unique : ∀ r1 r2, r1 ∈ repositories_of s → r2 ∈ repositories_of s →
                       id_of s r1 = id_of s r2 → r1 = r2;
  (** the selected wrapper exists *)
  wf_selected : ∀ r, _selectedRepository s = Some r → is_Some (id_of s r);
}.

(** ** Notions the properties are stated with *)

(** The contents of the array that [get repositories()] returns in [s]. *)
Definition snapshot (s : State) : option (list RepoRef) :=
  match get_repositories s with
  | (Return a, s', _) => arrays s' !! a
  | _ => None
  end.

(** Registering the providers of a list, one after the other. *)
Fixpoint register_all (ps : list ScmProvider) : Method (list RepoRef) :=
  match ps with
  | [] => mret []
  | p :: ps => r ← registerScmProvider p; rs ← register_all ps; mret (r :: rs)
  end.

(** A registry with no wrapper and no provider id. *)
Definition empty_registry (s : State) : Prop :=
  arrays s !! _repositories s = Some [] ∧ providerIds s = ∅.

(** The selected wrapper, if set, is in the sequence. *)
Definition selected_is_member (s : State) : Prop :=
  ∀ r, _selectedRepository s = Some r → r ∈ repositories_of s.

(** Calls that neither dispose the selected wrapper nor select a wrapper
    that is not in the sequence. *)
Definition keeps_selection_valid (s : State) (c : Call) : Prop :=
  match c with
  | CallDispose r => _selectedRepository s ≠ Some r
  | CallSetSelectedRepository (Some r) => r ∈ repositories_of s
  | _ => True
  end.

(** [well_typed], and its extension to a list of calls, as a check. *)
Definition is_object (s : State) (r : RepoRef) : bool :=
  match objects s !! r with Some _ => true | None => false end.

Fixpoint run_well_typed (cs : list Call) (s : State) : bool :=
  match cs with
  | [] => true
  | c :: cs =>
      forallb (is_object s) (refs_of c) && run_well_typed cs (state_after (call c s))
  end.

(** Providers for the concrete runs. *)
Definition provA : ScmProvider :=
  {| label := "A"; id := "a"; handle := 0; contextValue := "git"; rootUri := None |}.
Definition provB : ScmProvider :=
  {| label := "B"; id := "b"; handle := 1; contextValue := "git"; rootUri := None |}.
(** Another provider with the id of [provA]. *)
Definition provA' : ScmProvider :=
  {| label := "A2"; id := "a"; handle := 2; contextValue := "hg"; rootUri := None |}.

(** ** Sequences of setter calls on an input model *)

(** [input.value = v] for each [v] of [vs], in order. *)
Fixpoint set_values (vs : list string) : Input.Method unit :=
  match vs with
  | [] => mret tt
  | v :: vs => Input.set_value v;; set_values vs
  end.

(** [input.visible = b] for each [b] of [bs], in order. *)
Fixpoint set_visibles (bs : list bool) : Input.Method unit :=
  match bs with
  | [] => mret tt
  | b :: bs => Input.set_visible b;; set_visibles bs
  end.

(** The values of [vs] that differ from the value before them, [current]
    being the value before the first. *)
Fixpoint value_changes (current : string) (vs : list string) : list string :=
  match vs with
  | [] => []
  | v :: vs =>
      if String.eqb current v then value_changes current vs
      else v :: value_changes v vs
  end.

(** ** What a listener of the registry sees *)

(** The notifications emitted by a list of calls, in order. *)
Fixpoint run_events (cs : list Call) (s : State) : list Event :=
  match cs with
  | [] => []
  | c :: cs => emitted (call c s) ++ run_events cs (state_after (call c s))
  end.

(** A listener of [onDidAddRepository] and [onDidRemoveRepository] that
    keeps its own list of wrappers. *)
Definition track_sequence (l : list RepoRef) (e : Event) : list RepoRef :=
  match e with
  | OnDidAddRepository r => l ++ [r]
  | OnDidRemoveRepository r => filter (λ x, x ≠ r) l
  | _ => l
  end.

(** A listener of [onDidChangeSelectedRepositories] that keeps the last
    payload. *)
Definition track_selection (v : option RepoRef) (e : Event) : option RepoRef :=
  match e with
  | OnDidChangeSelectedRepositories v' => v'
  | _ => v
  end.

(** The calls that are methods of a wrapper or of its input model. *)
Definition is_wrapper_call (c : Call) : bool :=
  match c with
  | CallFocus _ | CallGetSelected _ | CallSetSelected _ _
  | CallSetValue _ _ | CallSetPlaceholder _ _ | CallSetVisible _ _
  | CallSetValidateInput _ _ => true
  | _ => false
  end.

(** ** Proof automation *)

(** Unfolds the monad so that a method applied to a state computes. *)
Ltac unfold_monad :=
  unfold mbind, mret, M_bind, M_ret, bind, ret, throw, get, modify, fire,
    completion, state_after, emitted in *.

(** Unfolds the methods down to the store primitives. *)
Ltac unfold_methods :=
  unfold registerScmProvider, get_repositories, get_selectedRepository,
    set_selectedRepository, Repository.focus, Repository.get_selected,
    Repository.setSelected, Repository.dispose, Repository.on_input,
    disposable_dispose, new_ScmRepositoryImpl, new_array, array_push,
    array_splice1, deref, deref_array;
  unfold_monad; simpl.

(** Unfolds the setters of the input model. *)
Ltac unfold_input_methods :=
  unfold Input.set_value, Input.set_placeholder, Input.set_visible,
    Input.set_validateInput.

(** * Properties *)

(** ** InputValidator.Result.equal *)

Lemma ValidationType_eqb_eq (a b : ValidationType) :
  ValidationType_eqb a b = true ↔ a = b.
Proof. destruct a, b; simpl; split; congruence. Qed.

(** C9: [equal] holds of two absent results; of two present results it
    holds exactly when their messages and their types are equal; of an
    absent and a present result, in either order, it fails. *)
Theorem Result_equal_spec :
  InputValidator.Result.equal None None = true
  ∧ (∀ l r : InputValidation,
       InputValidator.Result.equal (Some l) (Some r) = true
       ↔ message l = message r ∧ type l = type r)
  ∧ InputValidator.Result.equal
      (Some {| message := "m"; type := info |})
      (Some {| message := "m"; type := info |}) = true
  ∧ InputValidator.Result.equal
      (Some {| message := "m"; type := info |})
      (Some {| message := "m"; type := error |}) = false
  ∧ (∀ r : InputValidation,
       InputValidator.Result.equal None (Some r) = false
       ∧ InputValidator.Result.equal (Some r) None = false).
Proof.
  split_and!; try reflexivity.
  - intros l r. simpl. rewrite andb_true_iff, String.eqb_eq, ValidationType_eqb_eq.
    reflexivity.
  - intros r. split; reflexivity.
Qed.

(** ** ScmInputImpl *)

Section input_model.
Variable this : ScmInputImpl.

Lemma set_value_same (value : string) :
  value = _value this → Input.set_value value this = (Return tt, this, []).
Proof.
  intros ->. unfold Input.set_value. unfold_monad.
  rewrite String.eqb_refl. reflexivity.
Qed.

Lemma set_value_other (value : string) :
  value ≠ _value this →
  Input.set_value value this
  = (Return tt, Input.with_value value this, [OnDidChange value]).
Proof.
  intros Hne. unfold Input.set_value. unfold_monad.
  destruct (String.eqb_spec (_value this) value) as [Heq|_]; [congruence|].
  reflexivity.
Qed.

Lemma set_placeholder_eq (placeholder : string) :
  Input.set_placeholder placeholder this
  = (Return tt, Input.with_placeholder placeholder this,
     [OnDidChangePlaceholder placeholder]).
Proof. reflexivity. Qed.
End input_model.

(** C5: setting the value to the current value changes nothing and emits
    nothing; setting it to another string stores it and emits one
    [OnDidChange] carrying it.  Hence, from a model whose value is not [x]
    (a new model, say), setting [x] twice emits one notification, and
    setting [x] then a different [y] emits two, [x] then [y]; from a model
    that already holds [x], setting [x] twice emits none. *)
Theorem set_value_notifies_on_change (this : ScmInputImpl) (value x y : string) :
  (value = _value this → Input.set_value value this = (Return tt, this, []))
  ∧ (value ≠ _value this →
     Input.set_value value this
     = (Return tt, Input.with_value value this, [OnDidChange value])
     ∧ _value (Input.with_value value this) = value)
  ∧ (_value this ≠ x →
     emitted ((Input.set_value x;; Input.set_value x) this) = [OnDidChange x])
  ∧ (_value this = x →
     emitted ((Input.set_value x;; Input.set_value x) this) = [])
  ∧ (_value this ≠ x → x ≠ y →
     emitted ((Input.set_value x;; Input.set_value y) this)
     = [OnDidChange x; OnDidChange y]).
Proof.
  split_and!.
  - apply set_value_same.
  - intros Hne. split; [by apply set_value_other | reflexivity].
  - intros Hx. unfold mbind, M_bind, bind, emitted.
    rewrite set_value_other by congruence.
    rewrite set_value_same by reflexivity. reflexivity.
  - intros Hx. unfold mbind, M_bind, bind, emitted.
    rewrite set_value_same by congruence.
    rewrite set_value_same by congruence. reflexivity.
  - intros Hx Hy. unfold mbind, M_bind, bind, emitted.
    rewrite set_value_other by congruence.
    rewrite set_value_other by (simpl; congruence). reflexivity.
Qed.

Lemma set_value_notifies_on_change_witness :
  Input.set_value "" new_ScmInputImpl = (Return tt, new_ScmInputImpl, [])
  ∧ Input.set_value "x" new_ScmInputImpl
    = (Return tt, Input.with_value "x" new_ScmInputImpl, [OnDidChange "x"])
  ∧ emitted ((Input.set_value "x";; Input.set_value "x") new_ScmInputImpl)
    = [OnDidChange "x"]
  ∧ emitted ((Input.set_value "x";; Input.set_value "y") new_ScmInputImpl)
    = [OnDidChange "x"; OnDidChange "y"].
Proof.
  pose proof (set_value_notifies_on_change new_ScmInputImpl "" "x" "y")
    as (Hsame & _ & Hxx & _ & Hxy).
  pose proof (set_value_notifies_on_change new_ScmInputImpl "x" "x" "y")
    as (_ & Hother & _).
  split_and!.
  - apply Hsame. reflexivity.
  - apply Hother. discriminate.
  - apply Hxx. discriminate.
  - apply Hxy; discriminate.
Defined.

(** C6: setting the placeholder always stores it and emits one
    [OnDidChangePlaceholder] carrying it, also when it is the current
    placeholder; setting the same placeholder twice emits two. *)
Theorem set_placeholder_always_notifies (this : ScmInputImpl) (placeholder : string) :
  Input.set_placeholder placeholder this
  = (Return tt, Input.with_placeholder placeholder this,
     [OnDidChangePlaceholder placeholder])
  ∧ _placeholder (Input.with_placeholder placeholder this) = placeholder
  ∧ Input.set_placeholder (_placeholder this) this
    = (Return tt, this, [OnDidChangePlaceholder (_placeholder this)])
  ∧ emitted ((Input.set_placeholder placeholder;; Input.set_placeholder placeholder) this)
    = [OnDidChangePlaceholder placeholder; OnDidChangePlaceholder placeholder].
Proof.
  split_and!; try reflexivity.
  destruct this; reflexivity.
Qed.

(** ** ScmService: what each method computes *)

Lemma set_selectedRepository_eq (s : State) (repository : option RepoRef) :
  set_selectedRepository repository s
  = (Return tt, with_selectedRepository repository s,
     [OnDidChangeSelectedRepositories repository]).
Proof. reflexivity. Qed.

Lemma setSelected_eq (s : State) (this : RepoRef) (o : ScmRepositoryImpl) (selected : bool) :
  objects s !! this = Some o →
  Repository.setSelected this selected s
  = (Return tt, with_objects <[this := Repository.with_selected selected o]> s,
     [OnDidChangeSelection this selected]).
Proof.
  intros Ho. unfold Repository.setSelected, deref. unfold_monad.
  rewrite Ho. reflexivity.
Qed.

Lemma get_selected_eq (s : State) (this : RepoRef) (o : ScmRepositoryImpl) :
  objects s !! this = Some o →
  Repository.get_selected this s = (Return (_selected o), s, []).
Proof.
  intros Ho. unfold Repository.get_selected, deref. unfold_monad.
  rewrite Ho. reflexivity.
Qed.

Lemma registerScmProvider_throws (s : State) (provider : ScmProvider) :
  id provider ∈ providerIds s →
  registerScmProvider provider s = (Throw (already_exists provider), s, []).
Proof.
  intros Hin. unfold registerScmProvider. unfold_monad.
  rewrite decide_True by done. reflexivity.
Qed.

Lemma registerScmProvider_ok (s : State) (provider : ScmProvider) (l : list RepoRef) :
  id provider ∉ providerIds s →
  arrays s !! _repositories s = Some l →
  registerScmProvider provider s
  = (Return (fresh (dom (objects s))), registered provider l s,
     OnDidAddRepository (fresh (dom (objects s)))
     :: match l with
        | [] => [OnDidChangeSelectedRepositories (Some (fresh (dom (objects s))))]
        | _ :: _ => []
        end).
Proof.
  intros Hid Harr.
  unfold registerScmProvider, new_ScmRepositoryImpl, array_push, deref_array,
    set_selectedRepository.
  unfold_monad. rewrite decide_False by done. simpl.
  rewrite Harr. simpl. rewrite lookup_insert_eq. simpl.
  destruct l as [|x l]; simpl.
  - reflexivity.
  - rewrite decide_False by (rewrite length_app; simpl; lia).
    reflexivity.
Qed.

(** *** indexOf and splice *)

Lemma indexOf_absent (l : list RepoRef) (x : RepoRef) :
  x ∉ l → indexOf l x = (-1)%Z.
Proof.
  intros Hx. unfold indexOf.
  destruct (list_find (λ y, y = x) l) as [[i y]|] eqn:Hf; [|done].
  apply list_find_Some in Hf as (Hi & -> & _).
  exfalso. apply Hx. eapply list_elem_of_lookup_2, Hi.
Qed.

Lemma indexOf_present (l : list RepoRef) (x : RepoRef) :
  x ∈ l → ∃ i : nat, indexOf l x = Z.of_nat i ∧ l !! i = Some x.
Proof.
  intros Hx. unfold indexOf.
  destruct (list_find (λ y, y = x) l) as [[i y]|] eqn:Hf.
  - apply list_find_Some in Hf as (Hi & -> & _). eauto.
  - apply list_find_None in Hf. rewrite Forall_forall in Hf.
    exfalso. by apply (Hf x).
Qed.

Lemma indexOf_negative_iff (l : list RepoRef) (x : RepoRef) :
  (indexOf l x < 0)%Z ↔ x ∉ l.
Proof.
  split.
  - intros Hlt Hx. apply indexOf_present in Hx as (i & Hi & _). lia.
  - intros Hx. rewrite indexOf_absent by done. lia.
Qed.

Lemma delete_keeps_others (l : list RepoRef) (i : nat) (x y : RepoRef) :
  l !! i = Some x → y ≠ x → y ∈ l → y ∈ delete i l.
Proof.
  intros Hi Hne Hy. rewrite delete_take_drop.
  rewrite <- (take_drop_middle l i x Hi) in Hy.
  apply elem_of_app in Hy as [Hy|Hy]; apply elem_of_app; [by left|].
  apply elem_of_cons in Hy as [Hy|Hy]; [done|by right].
Qed.

Lemma delete_subset (l : list RepoRef) (i : nat) (y : RepoRef) :
  y ∈ delete i l → y ∈ l.
Proof. intros Hy. eapply elem_of_sublist; [exact Hy|apply sublist_delete]. Qed.

Lemma delete_NoDup_absent (l : list RepoRef) (i : nat) (x : RepoRef) :
  NoDup l → l !! i = Some x → x ∉ delete i l.
Proof.
  intros Hnd Hi. rewrite delete_take_drop.
  rewrite <- (take_drop_middle l i x Hi) in Hnd.
  apply NoDup_app in Hnd as (_ & Hdisj & Hnd).
  apply NoDup_cons in Hnd as (Hx & _).
  intros [Hin|Hin]%elem_of_app; [|done].
  apply (Hdisj x Hin). apply elem_of_cons. by left.
Qed.

Lemma delete_NoDup (l : list RepoRef) (i : nat) :
  NoDup l → NoDup (delete i l).
Proof.
  intros Hnd. exact (sublist_NoDup _ _ Hnd (sublist_delete l i)).
Qed.

(** *** The unregister closure and dispose *)

Lemma disposable_dispose_absent (s : State) (x : RepoRef) (p : ScmProvider)
    (l : list RepoRef) :
  arrays s !! _repositories s = Some l → x ∉ l →
  disposable_dispose x p s = (Return tt, s, []).
Proof.
  intros Harr Hx. unfold disposable_dispose, deref_array. unfold_monad.
  rewrite Harr. rewrite indexOf_absent by done. reflexivity.
Qed.

Lemma disposable_dispose_present (s : State) (x : RepoRef) (p : ScmProvider)
    (l : list RepoRef) :
  arrays s !! _repositories s = Some l → x ∈ l →
  disposable_dispose x p s
  = (Return tt, unregistered x p l s, [OnDidRemoveRepository x]).
Proof.
  intros Harr Hx. unfold disposable_dispose, array_splice1, deref_array.
  unfold_monad. rewrite Harr.
  destruct (indexOf_present l x Hx) as (i & Hi & _).
  destruct (Z.ltb_spec (indexOf l x) 0) as [Hlt|_]; [lia|].
  simpl. rewrite Harr. reflexivity.
Qed.

Lemma dispose_absent (s : State) (this : RepoRef) (o : ScmRepositoryImpl)
    (l : list RepoRef) :
  objects s !! this = Some o →
  arrays s !! _repositories s = Some l → this ∉ l →
  Repository.dispose this s = (Return tt, s, [ProviderDisposed (provider o)]).
Proof.
  intros Ho Harr Hx. unfold Repository.dispose, deref.
  unfold mbind, M_bind, bind. rewrite Ho.
  rewrite (disposable_dispose_absent s this (provider o) l) by done.
  reflexivity.
Qed.

Lemma dispose_present (s : State) (this : RepoRef) (o : ScmRepositoryImpl)
    (l : list RepoRef) :
  objects s !! this = Some o →
  arrays s !! _repositories s = Some l → this ∈ l →
  Repository.dispose this s
  = (Return tt, unregistered this (provider o) l s,
     [OnDidRemoveRepository this; ProviderDisposed (provider o)]).
Proof.
  intros Ho Harr Hx. unfold Repository.dispose, deref.
  unfold mbind, M_bind, bind. rewrite Ho.
  rewrite (disposable_dispose_present s this (provider o) l) by done.
  reflexivity.
Qed.

Lemma get_repositories_eq (s : State) (l : list RepoRef) :
  arrays s !! _repositories s = Some l →
  get_repositories s
  = (Return (fresh (dom (arrays s))),
     with_arrays <[fresh (dom (arrays s)) := l]> s, []).
Proof.
  intros Harr. unfold get_repositories, new_array, deref_array. unfold_monad.
  rewrite Harr. reflexivity.
Qed.

Lemma on_input_eq {A} (s : State) (this : RepoRef) (o : ScmRepositoryImpl)
    (m : Input.Method A) :
  objects s !! this = Some o →
  Repository.on_input this m s
  = (completion (m (input o)),
     with_objects <[this := Repository.with_input (state_after (m (input o))) o]> s,
     OnInput this <$> emitted (m (input o))).
Proof.
  intros Ho. unfold Repository.on_input. rewrite Ho.
  destruct (m (input o)) as [[c i] ev]. reflexivity.
Qed.

(** ** Invariants of the reachable states *)

Lemma id_of_is_Some (s : State) (r : RepoRef) :
  is_Some (id_of s r) ↔ is_Some (objects s !! r).
Proof. unfold id_of. apply fmap_is_Some. Qed.

Lemma repositories_of_eq (s : State) (l : list RepoRef) :
  arrays s !! _repositories s = Some l → repositories_of s = l.
Proof. intros H. unfold repositories_of. by rewrite H. Qed.

Lemma wf_lookup (s : State) :
  wf s → arrays s !! _repositories s = Some (repositories_of s).
Proof.
  intros [[l Hl] _ _ _ _ _]. by rewrite (repositories_of_eq s l Hl).
Qed.

Lemma wf_new : wf new_ScmService.
Proof.
  split.
  - by eexists.
  - apply NoDup_nil_2.
  - intros r Hr. by apply elem_of_nil in Hr.
  - intros x. split.
    + intros Hx. by apply elem_of_empty in Hx.
    + intros (r & Hr & _). by apply elem_of_nil in Hr.
  - intros r1 r2 Hr. by apply elem_of_nil in Hr.
  - intros r Hr. discriminate.
Qed.

(** A change that keeps the registry's fields, the internal array and the
    provider of every wrapper keeps the invariant. *)
Lemma wf_frame (s s' : State) :
  wf s →
  providerIds s' = providerIds s →
  _repositories s' = _repositories s →
  _selectedRepository s' = _selectedRepository s →
  arrays s' !! _repositories s = arrays s !! _repositories s →
  (∀ r, id_of s' r = id_of s r) →
  wf s'.
Proof.
  intros Hwf Hids Hrep Hsel Harr Hobj.
  assert (Hl : repositories_of s' = repositories_of s).
  { unfold repositories_of. by rewrite Hrep, Harr. }
  destruct Hwf as [H1 H2 H3 H4 H5 H6]. split.
  - by rewrite Hrep, Harr.
  - by rewrite Hl.
  - intros r. rewrite Hl, Hobj. apply H3.
  - intros x. rewrite Hids, Hl, H4. by setoid_rewrite Hobj.
  - intros r1 r2. rewrite Hl, !Hobj. apply H5.
  - intros r. rewrite Hsel, Hobj. apply H6.
Qed.

Lemma wf_update_object (s : State) (r : RepoRef) (o o' : ScmRepositoryImpl) :
  wf s → objects s !! r = Some o → provider o' = provider o →
  wf (with_objects <[r := o']> s).
Proof.
  intros Hwf Ho Hp. apply (wf_frame s); try done.
  intros r'. unfold id_of; simpl.
  destruct (decide (r = r')) as [<-|Hne].
  - rewrite lookup_insert_eq, Ho. simpl. by rewrite Hp.
  - by rewrite lookup_insert_ne.
Qed.

Lemma wf_select (s : State) (v : option RepoRef) :
  wf s → (∀ r, v = Some r → is_Some (objects s !! r)) →
  wf (with_selectedRepository v s).
Proof.
  intros [H1 H2 H3 H4 H5 H6] Hv. split; try done.
  simpl. intros r Hr. apply id_of_is_Some, Hv, Hr.
Qed.

Lemma wf_snapshot (s : State) (l : list RepoRef) :
  wf s → wf (with_arrays <[fresh (dom (arrays s)) := l]> s).
Proof.
  intros Hwf. apply (wf_frame s); try done. simpl.
  apply lookup_insert_ne. intros Heq.
  pose proof (is_fresh (dom (arrays s))) as Hfresh.
  rewrite Heq in Hfresh. apply Hfresh, elem_of_dom, (wf_array s Hwf).
Qed.

Lemma fresh_object_unused (s : State) : objects s !! fresh (dom (objects s)) = None.
Proof. apply not_elem_of_dom, is_fresh. Qed.

Lemma fresh_object_not_listed (s : State) :
  wf s → fresh (dom (objects s)) ∉ repositories_of s.
Proof.
  intros Hwf Hin. apply (wf_alloc s Hwf), id_of_is_Some in Hin.
  rewrite fresh_object_unused in Hin. by destruct Hin.
Qed.

Lemma repositories_of_registered (s : State) (p : ScmProvider) (l : list RepoRef) :
  repositories_of (registered p l s) = l ++ [fresh (dom (objects s))].
Proof. unfold repositories_of, registered; simpl. by rewrite lookup_insert_eq. Qed.

Lemma id_of_registered_new (s : State) (p : ScmProvider) (l : list RepoRef) :
  id_of (registered p l s) (fresh (dom (objects s))) = Some (id p).
Proof. unfold id_of, registered; simpl. by rewrite lookup_insert_eq. Qed.

Lemma id_of_registered_old (s : State) (p : ScmProvider) (l : list RepoRef) (r : RepoRef) :
  r ≠ fresh (dom (objects s)) → id_of (registered p l s) r = id_of s r.
Proof. intros Hne. unfold id_of, registered; simpl. by rewrite lookup_insert_ne. Qed.

Lemma wf_registered (s : State) (p : ScmProvider) :
  wf s → id p ∉ providerIds s → wf (registered p (repositories_of s) s).
Proof.
  intros Hwf Hid.
  pose proof (fresh_object_not_listed s Hwf) as Hfresh.
  set (l := repositories_of s) in *. set (r := fresh (dom (objects s))) in *.
  assert (Hold : ∀ r', r' ∈ l → id_of (registered p l s) r' = id_of s r').
  { intros r' Hr'. apply id_of_registered_old. intros ->. done. }
  split.
  - simpl. rewrite lookup_insert_eq. by eexists.
  - rewrite repositories_of_registered. apply NoDup_app. split_and!.
    + apply (wf_nodup s Hwf).
    + intros x Hx ->%list_elem_of_singleton. done.
    + apply NoDup_singleton.
  - intros r'. rewrite repositories_of_registered.
    intros [Hr'| ->%list_elem_of_singleton]%elem_of_app.
    + rewrite Hold by done. by apply (wf_alloc s Hwf).
    + rewrite id_of_registered_new. by eexists.
  - intros x. rewrite repositories_of_registered. simpl.
    rewrite elem_of_union, elem_of_singleton, (wf_ids s Hwf). split.
    + intros [(r' & Hr' & Hx)| ->].
      * exists r'. split; [apply elem_of_app; by left|]. by rewrite Hold.
      * exists r. split; [apply elem_of_app; right; by apply list_elem_of_singleton|].
        apply id_of_registered_new.
    + intros (r' & [Hr'| ->%list_elem_of_singleton]%elem_of_app & Hx).
      * left. exists r'. split; [done|]. by rewrite <- Hold.
      * right. rewrite id_of_registered_new in Hx. congruence.
  - intros r1 r2. rewrite repositories_of_registered.
    intros [H1| ->%list_elem_of_singleton]%elem_of_app
           [H2| ->%list_elem_of_singleton]%elem_of_app; try done.
    + rewrite !Hold by done. by apply (wf_unique s Hwf).
    + rewrite (Hold r1), id_of_registered_new by done. intros Heq.
      exfalso. apply Hid, (wf_ids s Hwf). by exists r1.
    + rewrite (Hold r2), id_of_registered_new by done. intros Heq.
      exfalso. apply Hid, (wf_ids s Hwf). by exists r2.
  - intros r0 Hsel. destruct (decide (r0 = r)) as [->|Hne].
    + rewrite id_of_registered_new. by eexists.
    + rewrite id_of_registered_old by done. apply (wf_selected s Hwf).
      simpl in Hsel. destruct l as [|y l']; [|done].
      injection Hsel as <-. done.
Qed.

Lemma repositories_of_unregistered (s : State) (x : RepoRef) (p : ScmProvider)
    (l : list RepoRef) :
  repositories_of (unregistered x p l s) = delete (Z.to_nat (indexOf l x)) l.
Proof. unfold repositories_of, unregistered; simpl. by rewrite lookup_insert_eq. Qed.

Lemma wf_unregistered (s : State) (x : RepoRef) (o : ScmRepositoryImpl) :
  wf s → objects s !! x = Some o → x ∈ repositories_of s →
  wf (unregistered x (provider o) (repositories_of s) s).
Proof.
  intros Hwf Ho Hx.
  set (l := repositories_of s) in *.
  destruct (indexOf_present l x Hx) as (i & Hi & Hli).
  assert (Hrep : repositories_of (unregistered x (provider o) l s) = delete i l).
  { rewrite repositories_of_unregistered, Hi. by rewrite Nat2Z.id. }
  assert (Hidx : id_of s x = Some (id (provider o))).
  { unfold id_of. by rewrite Ho. }
  assert (Hgone : x ∉ delete i l).
  { apply delete_NoDup_absent; [apply (wf_nodup s Hwf)|done]. }
  split.
  - simpl. rewrite lookup_insert_eq. by eexists.
  - rewrite Hrep. apply delete_NoDup, (wf_nodup s Hwf).
  - intros r. rewrite Hrep. intros Hr%delete_subset. by apply (wf_alloc s Hwf).
  - intros y. rewrite Hrep. simpl.
    rewrite elem_of_difference, elem_of_singleton, (wf_ids s Hwf). split.
    + intros [(r & Hr & Hy) Hne]. exists r. split; [|done].
      apply (delete_keeps_others l i x); [done| |done].
      intros ->. fold l in Hr. unfold id_of in Hy. rewrite Ho in Hy. simpl in Hy.
      congruence.
    + intros (r & Hr & Hy). split.
      * exists r. split; [by eapply delete_subset|done].
      * intros ->. apply Hgone.
        replace x with r; [done|].
        apply (wf_unique s Hwf); [by eapply delete_subset|done|].
        unfold id_of at 2. rewrite Ho. done.
  - intros r1 r2. rewrite Hrep. intros H1%delete_subset H2%delete_subset.
    by apply (wf_unique s Hwf).
  - intros r. apply (wf_selected s Hwf).
Qed.

Lemma call_wf (s : State) (c : Call) :
  wf s → well_typed s c → wf (state_after (call c s)).
Proof.
  intros Hwf Hc. pose proof (wf_lookup s Hwf) as Hl.
  assert (Hobj : ∀ r, r ∈ refs_of c → ∃ o, objects s !! r = Some o).
  { intros r Hr. destruct (Hc r Hr) as [o Ho]. eauto. }
  destruct c as [p| | |v|r|r|r b|r|r v|r v|r b|r f]; simpl in *.
  - unfold mbind, M_bind, bind, state_after.
    destruct (decide (id p ∈ providerIds s)) as [Hin|Hout].
    + by rewrite registerScmProvider_throws.
    + rewrite (registerScmProvider_ok s p _ Hout Hl). simpl.
      by apply wf_registered.
  - unfold mbind, M_bind, bind, state_after.
    rewrite (get_repositories_eq s _ Hl). simpl. by apply wf_snapshot.
  - done.
  - apply wf_select; [done|]. intros r ->. apply Hc. simpl.
    by apply list_elem_of_singleton.
  - destruct (Hobj r) as [o Ho]; [by apply list_elem_of_singleton|].
    unfold Repository.focus, deref, state_after. unfold_monad. by rewrite Ho.
  - destruct (Hobj r) as [o Ho]; [by apply list_elem_of_singleton|].
    unfold mbind, M_bind, bind, state_after.
    by rewrite (get_selected_eq s r o Ho).
  - destruct (Hobj r) as [o Ho]; [by apply list_elem_of_singleton|].
    rewrite (setSelected_eq s r o b Ho). by eapply wf_update_object.
  - destruct (Hobj r) as [o Ho]; [by apply list_elem_of_singleton|].
    destruct (decide (r ∈ repositories_of s)) as [Hin|Hout].
    + rewrite (dispose_present s r o _ Ho Hl Hin). by apply wf_unregistered.
    + by rewrite (dispose_absent s r o _ Ho Hl Hout).
  - destruct (Hobj r) as [o Ho]; [by apply list_elem_of_singleton|].
    rewrite (on_input_eq s r o _ Ho). by eapply wf_update_object.
  - destruct (Hobj r) as [o Ho]; [by apply list_elem_of_singleton|].
    rewrite (on_input_eq s r o _ Ho). by eapply wf_update_object.
  - destruct (Hobj r) as [o Ho]; [by apply list_elem_of_singleton|].
    rewrite (on_input_eq s r o _ Ho). by eapply wf_update_object.
  - destruct (Hobj r) as [o Ho]; [by apply list_elem_of_singleton|].
    rewrite (on_input_eq s r o _ Ho). by eapply wf_update_object.
Qed.

Lemma reachable_by_wf (allowed : State → Call → Prop) (s : State) :
  reachable_by allowed s → wf s.
Proof.
  induction 1 as [|s c _ IH Hc _]; [apply wf_new|by apply call_wf].
Qed.

(** ** Frame properties of the calls *)

(** No call writes to an array other than the internal one, and none
    replaces the internal one. *)
Lemma call_keeps_arrays (s : State) (c : Call) (a : ArrayRef) (l : list RepoRef) :
  a ≠ _repositories s → arrays s !! a = Some l →
  _repositories (state_after (call c s)) = _repositories s
  ∧ arrays (state_after (call c s)) !! a = Some l.
Proof.
  intros Hne Ha.
  assert (Hfresh : fresh (dom (arrays s)) ≠ a).
  { intros <-. apply (is_fresh (dom (arrays s))), elem_of_dom. by eexists. }
  destruct c; simpl; unfold_methods;
    repeat (case_match; simplify_eq/=);
    rewrite ?lookup_insert_ne by done; done.
Qed.

Lemma run_keeps_arrays (cs : list Call) (s : State) (a : ArrayRef) (l : list RepoRef) :
  a ≠ _repositories s → arrays s !! a = Some l →
  _repositories (run cs s) = _repositories s ∧ arrays (run cs s) !! a = Some l.
Proof.
  revert s. induction cs as [|c cs IH]; intros s Hne Ha; simpl; [done|].
  destruct (call_keeps_arrays s c a l Hne Ha) as [Hrep Harr].
  destruct (IH (state_after (call c s))) as [Hrep' Harr']; [congruence|done|].
  split; [congruence|done].
Qed.

(** Only [setSelected] on a wrapper changes its flag; no call changes its
    provider or removes it from the store. *)
Lemma call_keeps_flags (s : State) (c : Call) (r : RepoRef) (o : ScmRepositoryImpl) :
  objects s !! r = Some o →
  (∀ b, c ≠ CallSetSelected r b) →
  ∃ o', objects (state_after (call c s)) !! r = Some o'
        ∧ _selected o' = _selected o ∧ provider o' = provider o.
Proof.
  intros Ho Hc.
  assert (Hfresh : fresh (dom (objects s)) ≠ r).
  { intros <-. apply (is_fresh (dom (objects s))), elem_of_dom. by eexists. }
  destruct c as [p| | |v|r'|r'|r' b|r'|r' v|r' v|r' b|r' f]; simpl;
    unfold_methods;
    repeat (case_match; simplify_eq/=);
    try (destruct (decide (r' = r)) as [->|Hr]; [try (by destruct (Hc b))|]);
    simplify_map_eq; eauto.
Qed.

Lemma snapshot_eq (s : State) (l : list RepoRef) :
  arrays s !! _repositories s = Some l → snapshot s = Some l.
Proof.
  intros Hl. unfold snapshot. rewrite (get_repositories_eq s l Hl). simpl.
  apply lookup_insert_eq.
Qed.

Lemma is_object_well_typed (s : State) (c : Call) :
  forallb (is_object s) (refs_of c) = true → well_typed s c.
Proof.
  intros Hall r Hr. apply list_elem_of_In in Hr.
  rewrite forallb_forall in Hall. specialize (Hall r Hr).
  unfold is_object in Hall. destruct (objects s !! r); [by eexists|done].
Qed.

Lemma reachable_run (cs : list Call) (s : State) :
  reachable s → run_well_typed cs s = true → reachable (run cs s).
Proof.
  revert s. induction cs as [|c cs IH]; intros s Hs Hcs; simpl in *; [done|].
  apply andb_true_iff in Hcs as [Hc Hcs]. apply IH; [|done].
  apply reachable_call; [done|by apply is_object_well_typed|done].
Qed.

(** In a reachable state, the id of every wrapper of the sequence is in
    [providerIds]: a provider is registered exactly when its id is. *)
Lemma listed_id_in_providerIds (s : State) (r : RepoRef) (o : ScmRepositoryImpl) :
  reachable s → r ∈ repositories_of s → objects s !! r = Some o →
  id (provider o) ∈ providerIds s.
Proof.
  intros Hs Hr Ho. apply reachable_by_wf in Hs.
  apply (wf_ids s Hs). exists r. split; [done|].
  unfold id_of. by rewrite Ho.
Qed.

(** ** Duplicate registration *)

(** C1: registering a provider whose id is already registered throws the
    error that names the id, emits nothing and leaves the state as it was:
    same repositories snapshot, same provider ids, same selected
    repository. *)
Theorem duplicate_registration_throws (s : State) (provider : ScmProvider) :
  id provider ∈ providerIds s →
  registerScmProvider provider s
  = (Throw (Error ("SCM Provider " +:+ id provider +:+ " already exists.")), s, [])
  ∧ snapshot (state_after (registerScmProvider provider s)) = snapshot s
  ∧ repositories_of (state_after (registerScmProvider provider s)) = repositories_of s
  ∧ providerIds (state_after (registerScmProvider provider s)) = providerIds s
  ∧ _selectedRepository (state_after (registerScmProvider provider s))
    = _selectedRepository s.
Proof.
  intros Hin. rewrite (registerScmProvider_throws s provider Hin).
  split_and!; reflexivity.
Qed.

Lemma duplicate_registration_throws_witness :
  let s := state_after (registerScmProvider provA new_ScmService) in
  registerScmProvider provA' s
  = (Throw (Error "SCM Provider a already exists."), s, [])
  ∧ snapshot s = Some [0].
Proof.
  intros s.
  destruct (duplicate_registration_throws s provA') as (Heq & _).
  - vm_compute. reflexivity.
  - split; [exact Heq|]. vm_compute. reflexivity.
Defined.

(** ** The two selection setters *)

(** C7: assigning the registry's selected repository stores the value and
    emits one [OnDidChangeSelectedRepositories] carrying it, whatever the
    value (the current selection, another wrapper or [undefined]); and
    [setSelected] on a wrapper stores the flag and emits one
    [OnDidChangeSelection] carrying it, also when it is the current flag. *)
Theorem selection_setters_always_notify (s : State) :
  (∀ v : option RepoRef,
     set_selectedRepository v s
     = (Return tt, with_selectedRepository v s, [OnDidChangeSelectedRepositories v])
     ∧ get_selectedRepository (with_selectedRepository v s)
       = (Return v, with_selectedRepository v s, []))
  ∧ set_selectedRepository (_selectedRepository s) s
    = (Return tt, s, [OnDidChangeSelectedRepositories (_selectedRepository s)])
  ∧ (∀ (this : RepoRef) (o : ScmRepositoryImpl) (b : bool),
       objects s !! this = Some o →
       ∃ s', Repository.setSelected this b s
             = (Return tt, s', [OnDidChangeSelection this b])
             ∧ Repository.get_selected this s' = (Return b, s', [])
             ∧ (_selected o = b → s' = s)).
Proof.
  split_and!.
  - intros v. split; reflexivity.
  - destruct s; reflexivity.
  - intros this o b Ho. eexists. split_and!.
    + apply (setSelected_eq s this o b Ho).
    + apply (get_selected_eq _ this (Repository.with_selected b o)).
      simpl. apply lookup_insert_eq.
    + intros <-. destruct s as [ids rep sel arr objs]. simpl in *.
      unfold with_objects; simpl. f_equal.
      apply insert_id. rewrite Ho. by destruct o.
Qed.

Lemma selection_setters_always_notify_witness :
  let s := state_after (registerScmProvider provA new_ScmService) in
  ∃ s', Repository.setSelected 0 false s
        = (Return tt, s', [OnDidChangeSelection 0 false])
        ∧ Repository.get_selected 0 s' = (Return false, s', [])
        ∧ s' = s.
Proof.
  intros s.
  destruct (selection_setters_always_notify s) as (_ & _ & Hflag).
  destruct (Hflag 0 {| provider := provA; _selected := false;
                       input := new_ScmInputImpl |} false)
    as (s' & H1 & H2 & H3).
  - vm_compute. reflexivity.
  - exists s'. split_and!; [exact H1|exact H2|]. apply H3. reflexivity.
Defined.

(** ** Registry selection and wrapper flags *)

(** C10: assigning the registry's selected repository changes no wrapper
    (so no wrapper's flag); a registration changes no wrapper that exists;
    and after the first registration into a registry with an empty
    sequence, the new wrapper is the selected repository while its own
    [selected] is still [false].  More generally, no call other than
    [setSelected] on a wrapper changes the flag of that wrapper. *)
Theorem registry_selection_leaves_flags (s : State) :
  (∀ v : option RepoRef,
     objects (state_after (set_selectedRepository v s)) = objects s
     ∧ ∀ this, completion (Repository.get_selected this
                             (state_after (set_selectedRepository v s)))
               = completion (Repository.get_selected this s))
  ∧ (∀ (p : ScmProvider) (this : RepoRef) (o : ScmRepositoryImpl),
       objects s !! this = Some o →
       objects (state_after (registerScmProvider p s)) !! this = Some o)
  ∧ (∀ p : ScmProvider,
       arrays s !! _repositories s = Some [] → id p ∉ providerIds s →
       ∃ r s' ev,
         registerScmProvider p s = (Return r, s', ev)
         ∧ In (OnDidChangeSelectedRepositories (Some r)) ev
         ∧ get_selectedRepository s' = (Return (Some r), s', [])
         ∧ Repository.get_selected r s' = (Return false, s', []))
  ∧ (∀ (c : Call) (this : RepoRef) (o : ScmRepositoryImpl),
       objects s !! this = Some o → (∀ b, c ≠ CallSetSelected this b) →
       ∃ o', objects (state_after (call c s)) !! this = Some o'
             ∧ _selected o' = _selected o).
Proof.
  split_and!.
  - intros v. split; [reflexivity|]. intros this.
    unfold Repository.get_selected, deref. unfold_monad. simpl.
    by destruct (objects s !! this).
  - intros p this o Ho.
    assert (Hfresh : fresh (dom (objects s)) ≠ this).
    { intros <-. apply (is_fresh (dom (objects s))), elem_of_dom. by eexists. }
    unfold_methods. repeat (case_match; simplify_eq/=); by simplify_map_eq.
  - intros p Hl Hid. do 3 eexists. split_and!.
    + apply (registerScmProvider_ok s p [] Hid Hl).
    + simpl. right. by left.
    + reflexivity.
    + apply (get_selected_eq _ _ {| provider := p; _selected := false;
                                    input := new_ScmInputImpl |}).
      simpl. apply lookup_insert_eq.
  - intros c this o Ho Hc.
    destruct (call_keeps_flags s c this o Ho Hc) as (o' & Ho' & Hflag & _).
    eauto.
Qed.

Lemma registry_selection_leaves_flags_witness :
  ∃ r s' ev,
    registerScmProvider provA new_ScmService = (Return r, s', ev)
    ∧ In (OnDidChangeSelectedRepositories (Some r)) ev
    ∧ get_selectedRepository s' = (Return (Some r), s', [])
    ∧ Repository.get_selected r s' = (Return false, s', []).
Proof.
  destruct (registry_selection_leaves_flags new_ScmService) as (_ & _ & Hfirst & _).
  apply (Hfirst provA).
  - reflexivity.
  - vm_compute. intros H. discriminate H.
Defined.

Lemma filter_ne_absent (l : list RepoRef) (x : RepoRef) :
  x ∉ l → filter (λ r, r ≠ x) l = l.
Proof.
  induction l as [|y l IH]; intros Hx; [done|].
  apply not_elem_of_cons in Hx as [Hne Hx].
  rewrite filter_cons_True by done. by rewrite IH.
Qed.

Lemma delete_is_filter (l : list RepoRef) (i : nat) (x : RepoRef) :
  NoDup l → l !! i = Some x → delete i l = filter (λ r, r ≠ x) l.
Proof.
  revert i. induction l as [|y l IH]; intros i Hnd Hi; [done|].
  apply NoDup_cons in Hnd as [Hy Hnd].
  destruct i as [|i]; simpl in *.
  - injection Hi as ->. rewrite filter_cons_False by (intros H; by apply H).
    by rewrite filter_ne_absent.
  - assert (y ≠ x).
    { intros ->. apply Hy. by eapply list_elem_of_lookup_2. }
    rewrite filter_cons_True by done. by rewrite (IH i).
Qed.

(** ** Disposing a wrapper *)

(** C4: the first [dispose()] of a wrapper of the sequence returns
    normally, removes the wrapper from the repositories snapshot (the other
    wrappers stay, in order) and emits one registry notification,
    [OnDidRemoveRepository] carrying the wrapper; a second [dispose()]
    returns normally, emits no registry notification and leaves the state,
    hence the sequence and the provider ids, as it was. *)
Theorem dispose_once_then_noop (s : State) (this : RepoRef) :
  reachable s → this ∈ repositories_of s →
  ∃ o s1,
    objects s !! this = Some o
    ∧ Repository.dispose this s
      = (Return tt, s1, [OnDidRemoveRepository this; ProviderDisposed (provider o)])
    ∧ filter is_registry_notification (emitted (Repository.dispose this s))
      = [OnDidRemoveRepository this]
    ∧ (∃ l1, snapshot s1 = Some l1 ∧ (this ∉ l1)
             ∧ l1 = filter (λ r, r ≠ this) (repositories_of s))
    ∧ (id (provider o) ∉ providerIds s1)
    ∧ Repository.dispose this s1 = (Return tt, s1, [ProviderDisposed (provider o)])
    ∧ filter is_registry_notification (emitted (Repository.dispose this s1)) = []
    ∧ repositories_of (state_after (Repository.dispose this s1)) = repositories_of s1
    ∧ providerIds (state_after (Repository.dispose this s1)) = providerIds s1.
Proof.
  intros Hs Hin. apply reachable_by_wf in Hs as Hwf.
  pose proof (wf_lookup s Hwf) as Hl.
  destruct (wf_alloc s Hwf this Hin) as [x Hx].
  unfold id_of in Hx. destruct (objects s !! this) as [o|] eqn:Ho; [|done].
  pose proof (dispose_present s this o _ Ho Hl Hin) as Hfirst.
  pose proof (wf_unregistered s this o Hwf Ho Hin) as Hwf1.
  set (s1 := unregistered this (provider o) (repositories_of s) s) in *.
  pose proof (wf_lookup s1 Hwf1) as Hl1.
  destruct (indexOf_present _ this Hin) as (i & Hi & Hli).
  assert (Hrep1 : repositories_of s1 = delete i (repositories_of s)).
  { unfold s1. rewrite repositories_of_unregistered, Hi. by rewrite Nat2Z.id. }
  assert (Hgone : this ∉ repositories_of s1).
  { rewrite Hrep1. apply delete_NoDup_absent; [apply (wf_nodup s Hwf)|done]. }
  pose proof (dispose_absent s1 this o _ Ho Hl1 Hgone) as Hsecond.
  exists o, s1. rewrite Hfirst, Hsecond. split_and!; try done.
  - exists (repositories_of s1). split_and!; [by apply snapshot_eq|done|].
    rewrite Hrep1. apply delete_is_filter; [apply (wf_nodup s Hwf)|done].
  - simpl. rewrite elem_of_difference, elem_of_singleton. tauto.
Qed.

Lemma dispose_once_then_noop_witness :
  let s := run [CallRegisterScmProvider provA; CallRegisterScmProvider provB]
               new_ScmService in
  ∃ o s1,
    objects s !! 0 = Some o
    ∧ Repository.dispose 0 s
      = (Return tt, s1, [OnDidRemoveRepository 0; ProviderDisposed (provider o)])
    ∧ snapshot s1 = Some [1]
    ∧ Repository.dispose 0 s1 = (Return tt, s1, [ProviderDisposed (provider o)]).
Proof.
  intros s.
  destruct (dispose_once_then_noop s 0)
    as (o & s1 & Ho & Hfirst & _ & (l1 & Hsnap & _ & Hl1) & _ & Hsecond & _).
  - apply reachable_run; [apply reachable_new|vm_compute; reflexivity].
  - vm_compute. apply list_elem_of_here.
  - exists o, s1. split_and!; [exact Ho|exact Hfirst| |exact Hsecond].
    rewrite Hsnap, Hl1. vm_compute. reflexivity.
Defined.

(** ** The repositories snapshot *)

(** C8: [get repositories()] returns a new array, distinct from the
    internal one and from every array that existed, holding the sequence
    in order, and changes nothing else; and whatever calls follow
    (registrations, disposals, further snapshots, ...), the returned array
    still holds the sequence of the time of the call. *)
Theorem repositories_is_a_fresh_copy (s : State) :
  reachable s →
  ∃ a s1,
    get_repositories s = (Return a, s1, [])
    ∧ arrays s1 !! a = Some (repositories_of s)
    ∧ a ≠ _repositories s1
    ∧ arrays s !! a = None
    ∧ repositories_of s1 = repositories_of s
    ∧ (∀ cs : list Call, arrays (run cs s1) !! a = Some (repositories_of s)).
Proof.
  intros Hs. apply reachable_by_wf in Hs as Hwf.
  pose proof (wf_lookup s Hwf) as Hl.
  pose proof (is_fresh (dom (arrays s))) as Hfresh.
  assert (Hne : fresh (dom (arrays s)) ≠ _repositories s).
  { intros Heq. rewrite Heq in Hfresh. apply Hfresh, elem_of_dom. by eexists. }
  do 2 eexists. split; [apply (get_repositories_eq s _ Hl)|].
  split_and!; simpl.
  - apply lookup_insert_eq.
  - done.
  - by apply not_elem_of_dom.
  - unfold repositories_of; simpl. by rewrite lookup_insert_ne.
  - intros cs. apply run_keeps_arrays; simpl; [done|apply lookup_insert_eq].
Qed.

Lemma repositories_is_a_fresh_copy_witness :
  let s := run [CallRegisterScmProvider provA; CallRegisterScmProvider provB]
               new_ScmService in
  ∃ a s1,
    get_repositories s = (Return a, s1, [])
    ∧ arrays s1 !! a = Some [0; 1]
    ∧ arrays (run [CallDispose 0; CallRegisterScmProvider provA'] s1) !! a
      = Some [0; 1]
    ∧ repositories_of (run [CallDispose 0; CallRegisterScmProvider provA'] s1)
      = [1; 2].
Proof.
  intros s.
  destruct (repositories_is_a_fresh_copy s) as (a & s1 & Hget & Ha & _ & _ & _ & Hrun).
  - apply reachable_run; [apply reachable_new|vm_compute; reflexivity].
  - exists a, s1. split_and!; [exact Hget|exact Ha|apply Hrun|].
    assert (Hs1 : s1 = state_after (get_repositories s)) by (by rewrite Hget).
    rewrite Hs1. vm_compute. reflexivity.
Defined.

(** ** Automatic selection of the first repository *)

Lemma register_all_keeps_selection (ps : list ScmProvider) (s : State)
    (x : RepoRef) (l : list RepoRef) :
  arrays s !! _repositories s = Some (x :: l) →
  NoDup (id <$> ps) →
  (∀ p, p ∈ ps → id p ∉ providerIds s) →
  ∃ rs s' ev,
    register_all ps s = (Return rs, s', ev)
    ∧ length rs = length ps
    ∧ _selectedRepository s' = _selectedRepository s
    ∧ Forall (λ e, ∃ r, e = OnDidAddRepository r) ev.
Proof.
  revert s l. induction ps as [|p ps IH]; intros s l Hl Hnd Hids; simpl.
  - by exists [], s, [].
  - rewrite fmap_cons in Hnd. apply NoDup_cons in Hnd as [Hp Hnd].
    assert (Hid : id p ∉ providerIds s) by (apply Hids, list_elem_of_here).
    unfold mbind, M_bind, bind.
    rewrite (registerScmProvider_ok s p (x :: l) Hid Hl).
    destruct (IH (registered p (x :: l) s) (l ++ [fresh (dom (objects s))]))
      as (rs & s' & ev & Hrun & Hlen & Hsel & Hev).
    + simpl. by rewrite lookup_insert_eq.
    + done.
    + intros q Hq. simpl. rewrite elem_of_union, elem_of_singleton.
      intros [Hin|Heq].
      * apply (Hids q); [by apply list_elem_of_further|done].
      * apply Hp. rewrite <- Heq. by apply list_elem_of_fmap_2.
    + rewrite Hrun. simpl. do 3 eexists. split; [reflexivity|].
      split_and!; [simpl; by rewrite Hlen|done|].
      apply Forall_cons. split; [by eexists|].
      by rewrite app_nil_r.
Qed.

(** C2: registering [N >= 1] providers with distinct ids into an empty
    registry.  The first registration returns a wrapper and that wrapper is
    the selected repository right after it; and after each further
    registration (all of them return normally) it still is; the further
    registrations emit [OnDidAddRepository] only, no selection change. *)
Theorem first_registration_is_selected (s : State) (p : ScmProvider)
    (ps : list ScmProvider) :
  empty_registry s → NoDup (id <$> p :: ps) →
  ∃ r1 s1 ev1,
    registerScmProvider p s = (Return r1, s1, ev1)
    ∧ get_selectedRepository s1 = (Return (Some r1), s1, [])
    ∧ ∀ k, k ≤ length ps →
        ∃ rs sk evk,
          register_all (take k ps) s1 = (Return rs, sk, evk)
          ∧ length rs = k
          ∧ get_selectedRepository sk = (Return (Some r1), sk, [])
          ∧ Forall (λ e, ∃ r, e = OnDidAddRepository r) evk.
Proof.
  intros [Hl Hids] Hnd. rewrite fmap_cons in Hnd.
  apply NoDup_cons in Hnd as [Hp Hnd].
  assert (Hid : id p ∉ providerIds s) by (rewrite Hids; apply not_elem_of_empty).
  do 3 eexists. split; [apply (registerScmProvider_ok s p [] Hid Hl)|].
  split; [reflexivity|]. intros k Hk.
  destruct (register_all_keeps_selection (take k ps) (registered p [] s)
              (fresh (dom (objects s))) [])
    as (rs & sk & evk & Hrun & Hlen & Hsel & Hev).
  - simpl. by rewrite lookup_insert_eq.
  - rewrite fmap_take. eapply sublist_NoDup; [exact Hnd|apply sublist_take].
  - intros q Hq. simpl. rewrite Hids, elem_of_union, elem_of_singleton.
    intros [Hin|Heq]; [by apply not_elem_of_empty in Hin|].
    apply Hp. rewrite <- Heq. apply list_elem_of_fmap_2.
    eapply elem_of_sublist; [exact Hq|apply sublist_take].
  - exists rs, sk, evk. split_and!; [done| | |].
    + rewrite Hlen, length_take. lia.
    + unfold get_selectedRepository. unfold_monad. by rewrite Hsel.
    + exact Hev.
Qed.

Lemma first_registration_is_selected_witness :
  ∃ r1 s1 ev1 rs s3 ev3,
    registerScmProvider provA new_ScmService = (Return r1, s1, ev1)
    ∧ get_selectedRepository s1 = (Return (Some r1), s1, [])
    ∧ register_all [provB] s1 = (Return rs, s3, ev3)
    ∧ get_selectedRepository s3 = (Return (Some r1), s3, []).
Proof.
  destruct (first_registration_is_selected new_ScmService provA [provB])
    as (r1 & s1 & ev1 & Hreg & Hsel & Hrest).
  - split; reflexivity.
  - apply (bool_decide_unpack _). vm_compute. reflexivity.
  - destruct (Hrest 1) as (rs & s3 & ev3 & Hall & _ & Hsel3 & _); [simpl; lia|].
    exists r1, s1, ev1, rs, s3, ev3. split_and!; assumption.
Defined.

(** ** Membership of the selected repository *)

Lemma call_keeps_member (s : State) (c : Call) :
  wf s → well_typed s c → keeps_selection_valid s c →
  selected_is_member s → selected_is_member (state_after (call c s)).
Proof.
  intros Hwf Hc Hok Hmem. pose proof (wf_lookup s Hwf) as Hl.
  assert (Hobj : ∀ r, r ∈ refs_of c → ∃ o, objects s !! r = Some o).
  { intros r Hr. destruct (Hc r Hr) as [o Ho]. eauto. }
  assert (Hupd : ∀ r o, selected_is_member (with_objects <[r := o]> s)) by done.
  destruct c as [p| | |v|r|r|r b|r|r v|r v|r b|r f]; simpl in *.
  - unfold mbind, M_bind, bind, state_after.
    destruct (decide (id p ∈ providerIds s)) as [Hin|Hout].
    + by rewrite registerScmProvider_throws.
    + rewrite (registerScmProvider_ok s p _ Hout Hl). simpl.
      intros r Hr. rewrite repositories_of_registered. simpl in Hr.
      apply elem_of_app. destruct (repositories_of s) as [|y l] eqn:Hrep.
      * right. injection Hr as <-. apply list_elem_of_here.
      * left. rewrite <- Hrep. by apply Hmem.
  - unfold mbind, M_bind, bind, state_after.
    rewrite (get_repositories_eq s _ Hl). simpl.
    intros r Hr. unfold repositories_of; simpl.
    rewrite lookup_insert_ne; [by apply Hmem|].
    intros Heq. pose proof (is_fresh (dom (arrays s))) as Hfresh.
    rewrite Heq in Hfresh. apply Hfresh, elem_of_dom. by eexists.
  - done.
  - intros r Hr. simpl in Hr. subst v. exact Hok.
  - destruct (Hobj r) as [o Ho]; [by apply list_elem_of_singleton|].
    unfold Repository.focus, deref, state_after. unfold_monad. by rewrite Ho.
  - destruct (Hobj r) as [o Ho]; [by apply list_elem_of_singleton|].
    unfold mbind, M_bind, bind, state_after.
    by rewrite (get_selected_eq s r o Ho).
  - destruct (Hobj r) as [o Ho]; [by apply list_elem_of_singleton|].
    rewrite (setSelected_eq s r o b Ho). apply Hupd.
  - destruct (Hobj r) as [o Ho]; [by apply list_elem_of_singleton|].
    destruct (decide (r ∈ repositories_of s)) as [Hin|Hout].
    + rewrite (dispose_present s r o _ Ho Hl Hin). unfold state_after; simpl.
      intros r0 Hr0. rewrite repositories_of_unregistered. simpl in Hr0.
      destruct (indexOf_present _ r Hin) as (i & Hi & Hli).
      rewrite Hi, Nat2Z.id. apply (delete_keeps_others _ i r); [done| |by apply Hmem].
      intros ->. by apply Hok.
    + by rewrite (dispose_absent s r o _ Ho Hl Hout).
  - destruct (Hobj r) as [o Ho]; [by apply list_elem_of_singleton|].
    rewrite (on_input_eq s r o _ Ho). apply Hupd.
  - destruct (Hobj r) as [o Ho]; [by apply list_elem_of_singleton|].
    rewrite (on_input_eq s r o _ Ho). apply Hupd.
  - destruct (Hobj r) as [o Ho]; [by apply list_elem_of_singleton|].
    rewrite (on_input_eq s r o _ Ho). apply Hupd.
  - destruct (Hobj r) as [o Ho]; [by apply list_elem_of_singleton|].
    rewrite (on_input_eq s r o _ Ho). apply Hupd.
Qed.

(** C3, as the code has it: the selected repository, if set, is in the
    sequence in every state reached by calls among which none disposes
    the selected wrapper and none assigns a wrapper outside the sequence as
    the selection.  Registrations, snapshots, disposals of other wrappers,
    assignments of [undefined] or of a wrapper of the sequence, and all
    wrapper and input methods keep it. *)
Theorem selected_is_member_unless_disposed_or_misassigned (s : State) :
  reachable_by keeps_selection_valid s → selected_is_member s.
Proof.
  induction 1 as [|s c Hs IH Hc Hok].
  - intros r Hr. discriminate Hr.
  - apply call_keeps_member; [by eapply reachable_by_wf|done|done|done].
Qed.

Lemma selected_is_member_unless_disposed_or_misassigned_witness :
  let s := run [CallRegisterScmProvider provA; CallRegisterScmProvider provB;
                CallDispose 1; CallSetSelectedRepository (Some 0)] new_ScmService in
  _selectedRepository s = Some 0 ∧ 0 ∈ repositories_of s.
Proof.
  intros s. split; [vm_compute; reflexivity|].
  apply (selected_is_member_unless_disposed_or_misassigned s);
    [|vm_compute; reflexivity].
  unfold s, run.
  apply reachable_call.
  - apply reachable_call.
    + apply reachable_call.
      * apply reachable_call; [apply reachable_new| |exact I].
        intros r Hr. vm_compute in Hr. inversion Hr.
      * intros r Hr. vm_compute in Hr. inversion Hr.
      * exact I.
    + apply is_object_well_typed. vm_compute. reflexivity.
    + vm_compute. intros H. discriminate H.
  - apply is_object_well_typed. vm_compute. reflexivity.
  - vm_compute. apply list_elem_of_here.
Defined.

(** C3 as stated fails.  After registering one provider and disposing its
    wrapper, the wrapper is still the selected repository and the sequence
    is empty; and after registering two providers, disposing the second
    wrapper and assigning it as the selection, the selected repository is
    not in the sequence either. *)
Lemma selected_is_member_counterexample :
  (let s := run [CallRegisterScmProvider provA; CallDispose 0] new_ScmService in
   reachable s ∧ _selectedRepository s = Some 0 ∧ repositories_of s = []
   ∧ ¬ selected_is_member s)
  ∧ (let s := run [CallRegisterScmProvider provA; CallRegisterScmProvider provB;
                   CallDispose 1; CallSetSelectedRepository (Some 1)]
                  new_ScmService in
     reachable s ∧ _selectedRepository s = Some 1 ∧ repositories_of s = [0]
     ∧ ¬ selected_is_member s)
  ∧ ¬ (∀ s, reachable s → selected_is_member s).
Proof.
  assert (H1 : let s := run [CallRegisterScmProvider provA; CallDispose 0]
                            new_ScmService in
               reachable s ∧ _selectedRepository s = Some 0
               ∧ repositories_of s = [] ∧ ¬ selected_is_member s).
  { intros s. split_and!.
    - apply reachable_run; [apply reachable_new|vm_compute; reflexivity].
    - vm_compute. reflexivity.
    - vm_compute. reflexivity.
    - intros Hmem. specialize (Hmem 0).
      assert (Hin : 0 ∈ repositories_of s) by (apply Hmem; vm_compute; reflexivity).
      vm_compute in Hin. inversion Hin. }
  split_and!.
  - exact H1.
  - intros s. split_and!.
    + apply reachable_run; [apply reachable_new|vm_compute; reflexivity].
    + vm_compute. reflexivity.
    + vm_compute. reflexivity.
    + intros Hmem. specialize (Hmem 1).
      assert (Hin : 1 ∈ repositories_of s) by (apply Hmem; vm_compute; reflexivity).
      vm_compute in Hin. inversion Hin as [|? ? ? Hin']. inversion Hin'.
  - intros Hall. destruct H1 as (Hreach & _ & _ & Hnot).
    apply Hnot, Hall, Hreach.
Qed.

(** * Further properties *)

(** ** InputValidator.Result.equal is structural equality *)

(** X1: [equal] decides equality of results: it returns [true] exactly when
    both sides are absent or both are present with the same message and
    type.  So it is reflexive, symmetric and transitive. *)
Theorem Result_equal_iff_eq (left right : InputValidator.Result.t) :
  InputValidator.Result.equal left right = true ↔ left = right.
Proof.
  destruct left as [[m1 t1]|], right as [[m2 t2]|]; simpl;
    try (split; [discriminate|congruence]); [|done].
  rewrite andb_true_iff, String.eqb_eq, ValidationType_eqb_eq.
  split; [intros [-> ->]; reflexivity|intros [= -> ->]; done].
Qed.

(** ** Sequences of setter calls *)

Lemma with_value_current (this : ScmInputImpl) :
  Input.with_value (_value this) this = this.
Proof. by destruct this. Qed.

Lemma with_value_twice (this : ScmInputImpl) (v w : string) :
  Input.with_value w (Input.with_value v this) = Input.with_value w this.
Proof. reflexivity. Qed.

Lemma last_nonempty (x : string) (l : list string) (d d' : string) :
  List.last (x :: l) d = List.last (x :: l) d'.
Proof.
  revert x. induction l as [|y l IH]; intros x; [done|].
  change (List.last (y :: l) d = List.last (y :: l) d'). apply IH.
Qed.

(** X2: a sequence of assignments to [value] returns normally, leaves the
    last assigned value stored (the current one if there is none) and
    emits one [OnDidChange] for each assignment that differs from the
    value before it, in order, and nothing for the others. *)
Theorem set_values_emits_changes (vs : list string) (this : ScmInputImpl) :
  set_values vs this
  = (Return tt, Input.with_value (List.last vs (_value this)) this,
     OnDidChange <$> value_changes (_value this) vs).
Proof.
  revert this. induction vs as [|v vs IH]; intros this.
  - simpl. by rewrite with_value_current.
  - cbn [set_values]. unfold mbind, M_bind, bind.
    destruct (String.eqb_spec (_value this) v) as [Heq|Hne].
    + rewrite set_value_same by done. rewrite IH. simpl.
      rewrite <- Heq, String.eqb_refl.
      destruct vs; reflexivity.
    + rewrite set_value_other by done. rewrite IH. simpl.
      destruct (String.eqb_spec (_value this) v) as [|_]; [congruence|].
      rewrite with_value_twice. destruct vs as [|w vs]; [done|].
      by rewrite (last_nonempty w vs v (_value this)).
Qed.

Lemma value_changes_length (current : string) (vs : list string) :
  length (value_changes current vs) ≤ length vs.
Proof.
  revert current. induction vs as [|v vs IH]; intros current; simpl; [lia|].
  destruct (String.eqb current v); simpl; [specialize (IH current)|specialize (IH v)]; lia.
Qed.

(** X3: the payloads of the value notifications never repeat the value
    before them: the first differs from the value the model held, and
    each further one differs from the payload before it; and there are at
    most as many notifications as assignments. *)
Theorem value_notifications_never_repeat (vs : list string) (this : ScmInputImpl) :
  ∃ payloads : list string,
    emitted (set_values vs this) = OnDidChange <$> payloads
    ∧ length payloads ≤ length vs
    ∧ (∀ i v w, (_value this :: payloads) !! i = Some v →
                payloads !! i = Some w → v ≠ w).
Proof.
  exists (value_changes (_value this) vs).
  rewrite set_values_emits_changes. split_and!; [done|apply value_changes_length|].
  generalize (_value this) as current.
  induction vs as [|x vs IH]; intros current i v w; simpl.
  - intros _ Hw. by rewrite lookup_nil in Hw.
  - destruct (String.eqb_spec current x) as [Heq|Hne]; [apply IH|].
    destruct i as [|i]; simpl.
    + intros [= <-] [= <-]. done.
    + apply IH.
Qed.

Lemma last_cons {A} (x d : A) (l : list A) :
  List.last (x :: l) d = List.last l x.
Proof.
  revert x d. induction l as [|y l IH]; intros x d; [done|].
  change (List.last (y :: l) d = List.last (y :: l) x).
  by rewrite !IH.
Qed.

Lemma set_visible_eq (this : ScmInputImpl) (visible : bool) :
  Input.set_visible visible this
  = (Return tt, Input.with_visible visible this, [OnDidChangeVisibility visible]).
Proof. reflexivity. Qed.

(** X4: [visible] and [validateInput] have no guard.  A sequence of
    assignments to [visible] emits one [OnDidChangeVisibility] per
    assignment, repeated values included, and leaves the last one stored;
    an assignment to [validateInput] stores the validator and emits one
    [OnDidChangeValidateInput], which carries nothing, also when the
    validator is the one already stored. *)
Theorem visible_and_validator_always_notify (this : ScmInputImpl) :
  (∀ bs : list bool,
     set_visibles bs this
     = (Return tt, Input.with_visible (List.last bs (_visible this)) this,
        OnDidChangeVisibility <$> bs))
  ∧ (∀ f : InputValidator,
       Input.set_validateInput f this
       = (Return tt, Input.with_validateInput f this, [OnDidChangeValidateInput])
       ∧ Input.get_validateInput (Input.with_validateInput f this)
         = (Return f, Input.with_validateInput f this, []))
  ∧ Input.set_validateInput (_validateInput this) this
    = (Return tt, this, [OnDidChangeValidateInput]).
Proof.
  split_and!.
  - intros bs. revert this. induction bs as [|b bs IH]; intros this.
    + by destruct this.
    + cbn [set_visibles]. unfold mbind, M_bind, bind.
      rewrite set_visible_eq, IH, (last_cons b (_visible this) bs).
      reflexivity.
  - intros f. split; reflexivity.
  - by destruct this.
Qed.

(** X5: the four fields of an input model are independent and read back
    what was written.  After any setter the matching getter returns the
    assigned value (for [value], also when the assignment was the no-op),
    the other three fields are as before, getters change nothing and emit
    nothing, and no setter throws. *)
Theorem input_fields_round_trip (this : ScmInputImpl)
    (v p : string) (b : bool) (f : InputValidator) :
  let i1 := state_after (Input.set_value v this) in
  let i2 := state_after (Input.set_placeholder p this) in
  let i3 := state_after (Input.set_visible b this) in
  let i4 := state_after (Input.set_validateInput f this) in
  (Input.get_value i1 = (Return v, i1, [])
   ∧ _placeholder i1 = _placeholder this ∧ _visible i1 = _visible this
   ∧ _validateInput i1 = _validateInput this
   ∧ completion (Input.set_value v this) = Return tt)
  ∧ (Input.get_placeholder i2 = (Return p, i2, [])
     ∧ _value i2 = _value this ∧ _visible i2 = _visible this
     ∧ _validateInput i2 = _validateInput this)
  ∧ (Input.get_visible i3 = (Return b, i3, [])
     ∧ _value i3 = _value this ∧ _placeholder i3 = _placeholder this
     ∧ _validateInput i3 = _validateInput this)
  ∧ (Input.get_validateInput i4 = (Return f, i4, [])
     ∧ _value i4 = _value this ∧ _placeholder i4 = _placeholder this
     ∧ _visible i4 = _visible this).
Proof.
  split_and!; try reflexivity.
  all: destruct (String.eqb_spec (_value this) v) as [Heq|Hne].
  all: try (rewrite (set_value_same this v) by done).
  all: try (rewrite (set_value_other this v) by done).
  all: try reflexivity.
  unfold Input.get_value. unfold_monad. simpl. by rewrite Heq.
Qed.

(** ** Registration *)

(** X6: a registration whose id is free returns a wrapper that did not
    exist before, built around the given provider with [selected = false]
    and a new input model; it appends the wrapper at the end of the
    sequence, adds the id, and leaves every other wrapper as it was.  It
    emits [OnDidAddRepository] first; when the sequence was empty it then
    makes the wrapper the selected repository and emits the selection
    change, whatever the selection was before; otherwise the selection is
    untouched and nothing more is emitted. *)
Theorem registration_appends (s : State) (p : ScmProvider) (l : list RepoRef) :
  id p ∉ providerIds s → arrays s !! _repositories s = Some l →
  ∃ r s' ev,
    registerScmProvider p s = (Return r, s', ev)
    ∧ objects s !! r = None
    ∧ objects s' !! r
      = Some {| provider := p; _selected := false; input := new_ScmInputImpl |}
    ∧ (∀ r', r' ≠ r → objects s' !! r' = objects s !! r')
    ∧ repositories_of s' = l ++ [r]
    ∧ providerIds s' = providerIds s ∪ {[id p]}
    ∧ (l = [] →
       _selectedRepository s' = Some r
       ∧ ev = [OnDidAddRepository r; OnDidChangeSelectedRepositories (Some r)])
    ∧ (l ≠ [] →
       _selectedRepository s' = _selectedRepository s
       ∧ ev = [OnDidAddRepository r]).
Proof.
  intros Hid Hl. do 3 eexists.
  split; [apply (registerScmProvider_ok s p l Hid Hl)|].
  split_and!.
  - apply fresh_object_unused.
  - simpl. apply lookup_insert_eq.
  - intros r' Hne. simpl. by apply lookup_insert_ne.
  - apply repositories_of_registered.
  - reflexivity.
  - intros ->. done.
  - intros Hne. destruct l; done.
Qed.

Lemma registration_appends_witness :
  let s := state_after (Repository.dispose 0
             (state_after (registerScmProvider provA new_ScmService))) in
  _selectedRepository s = Some 0
  ∧ ∃ r s' ev,
      registerScmProvider provB s = (Return r, s', ev)
      ∧ repositories_of s' = [r]
      ∧ _selectedRepository s' = Some r
      ∧ ev = [OnDidAddRepository r; OnDidChangeSelectedRepositories (Some r)].
Proof.
  intros s. split; [vm_compute; reflexivity|].
  destruct (registration_appends s provB [])
    as (r & s' & ev & Hreg & _ & _ & _ & Hrep & _ & Hfirst & _).
  - vm_compute. intros H. discriminate H.
  - vm_compute. reflexivity.
  - destruct (Hfirst eq_refl) as [Hsel Hev].
    exists r, s', ev. split_and!; assumption.
Defined.

(** X7: in a reachable state a registration throws exactly when a wrapper
    of the sequence has a provider with the same id; otherwise it returns a
    wrapper. *)
Theorem registration_throws_iff_id_is_live (s : State) (p : ScmProvider) :
  reachable s →
  (completion (registerScmProvider p s) = Throw (already_exists p)
   ↔ ∃ r o, r ∈ repositories_of s ∧ objects s !! r = Some o
            ∧ id (provider o) = id p)
  ∧ (completion (registerScmProvider p s) = Throw (already_exists p)
     ∨ ∃ r, completion (registerScmProvider p s) = Return r).
Proof.
  intros Hs. apply reachable_by_wf in Hs as Hwf.
  pose proof (wf_lookup s Hwf) as Hl.
  assert (Hlive : id p ∈ providerIds s
                  ↔ ∃ r o, r ∈ repositories_of s ∧ objects s !! r = Some o
                           ∧ id (provider o) = id p).
  { rewrite (wf_ids s Hwf). unfold id_of. split.
    - intros (r & Hr & Hid). destruct (objects s !! r) as [o|] eqn:Ho; [|done].
      exists r, o. split_and!; [done|done|]. simpl in Hid. congruence.
    - intros (r & o & Hr & Ho & Hid). exists r. rewrite Ho. simpl.
      split; [done|congruence]. }
  rewrite <- Hlive.
  destruct (decide (id p ∈ providerIds s)) as [Hin|Hout].
  - rewrite (registerScmProvider_throws s p Hin). simpl. split; [done|by left].
  - rewrite (registerScmProvider_ok s p _ Hout Hl). simpl.
    split; [split; [discriminate|done]|right; by eexists].
Qed.

Lemma registration_throws_iff_id_is_live_witness :
  let s := run [CallRegisterScmProvider provA] new_ScmService in
  completion (registerScmProvider provA' s) = Throw (already_exists provA')
  ∧ ∃ r, completion (registerScmProvider provB s) = Return r.
Proof.
  intros s.
  assert (Hs : reachable s).
  { apply reachable_run; [apply reachable_new|vm_compute; reflexivity]. }
  split.
  - apply (registration_throws_iff_id_is_live s provA' Hs).
    exists 0, {| provider := provA; _selected := false; input := new_ScmInputImpl |}.
    split_and!; [vm_compute; apply list_elem_of_here|vm_compute; reflexivity|reflexivity].
  - destruct (registration_throws_iff_id_is_live s provB Hs) as [_ [Hthrow|Hret]];
      [|exact Hret].
    vm_compute in Hthrow. discriminate Hthrow.
Defined.

(** ** Invariants of the registry *)

(** X8: in every reachable state no wrapper occurs twice in the sequence
    and no two wrappers of the sequence have providers with the same
    id. *)
Theorem live_wrappers_are_distinct (s : State) :
  reachable s →
  NoDup (repositories_of s)
  ∧ ∀ r1 r2 o1 o2,
      r1 ∈ repositories_of s → r2 ∈ repositories_of s →
      objects s !! r1 = Some o1 → objects s !! r2 = Some o2 →
      id (provider o1) = id (provider o2) → r1 = r2.
Proof.
  intros Hs. apply reachable_by_wf in Hs as Hwf. split.
  - apply (wf_nodup s Hwf).
  - intros r1 r2 o1 o2 H1 H2 Ho1 Ho2 Hid.
    apply (wf_unique s Hwf); [done|done|].
    unfold id_of. rewrite Ho1, Ho2. simpl. by rewrite Hid.
Qed.

Lemma live_wrappers_are_distinct_witness :
  NoDup (repositories_of
           (run [CallRegisterScmProvider provA; CallRegisterScmProvider provB;
                 CallDispose 0; CallRegisterScmProvider provA'] new_ScmService)).
Proof.
  apply live_wrappers_are_distinct.
  apply reachable_run; [apply reachable_new|vm_compute; reflexivity].
Defined.

(** X9: in every reachable state [providerIds] holds exactly the ids of
    the providers of the wrappers of the sequence, and as many ids as the
    sequence has wrappers. *)
Theorem providerIds_are_the_live_ids (s : State) :
  reachable s →
  (∀ x, x ∈ providerIds s
        ↔ ∃ r o, r ∈ repositories_of s ∧ objects s !! r = Some o
                 ∧ id (provider o) = x)
  ∧ size (providerIds s) = length (repositories_of s).
Proof.
  intros Hs. apply reachable_by_wf in Hs as Hwf.
  assert (Hlive : ∀ x, x ∈ providerIds s
                       ↔ ∃ r, r ∈ repositories_of s ∧ id_of s r = Some x)
    by apply (wf_ids s Hwf).
  split.
  - intros x. rewrite Hlive. unfold id_of. split.
    + intros (r & Hr & Hid). destruct (objects s !! r) as [o|] eqn:Ho; [|done].
      exists r, o. split_and!; [done|done|]. simpl in Hid. congruence.
    + intros (r & o & Hr & Ho & Hid). exists r. rewrite Ho. simpl.
      split; [done|congruence].
  - set (f := λ r, default ""%string (id_of s r)).
    assert (Hset : providerIds s = list_to_set (f <$> repositories_of s)).
    { apply set_eq. intros x. rewrite Hlive, elem_of_list_to_set, list_elem_of_fmap.
      split.
      - intros (r & Hr & Hid). exists r. split; [|done]. unfold f. by rewrite Hid.
      - intros (r & -> & Hr). exists r. split; [done|].
        destruct (wf_alloc s Hwf r Hr) as [y Hy]. unfold f. by rewrite Hy. }
    rewrite Hset, size_list_to_set, length_fmap; [done|].
    apply NoDup_fmap_2_strong; [|apply (wf_nodup s Hwf)].
    intros r1 r2 H1 H2 Hf. apply (wf_unique s Hwf); [done|done|].
    destruct (wf_alloc s Hwf r1 H1) as [y1 Hy1].
    destruct (wf_alloc s Hwf r2 H2) as [y2 Hy2].
    unfold f in Hf. rewrite Hy1, Hy2 in *. simpl in Hf. by rewrite Hf.
Qed.

Lemma providerIds_are_the_live_ids_witness :
  let s := run [CallRegisterScmProvider provA; CallRegisterScmProvider provB;
                CallDispose 0] new_ScmService in
  size (providerIds s) = 1 ∧ repositories_of s = [1].
Proof.
  intros s.
  destruct (providerIds_are_the_live_ids s) as [_ Hsize].
  - apply reachable_run; [apply reachable_new|vm_compute; reflexivity].
  - assert (Hrep : repositories_of s = [1]) by (vm_compute; reflexivity).
    split; [|exact Hrep]. rewrite Hsize, Hrep. reflexivity.
Defined.

(** ** Disposal and registration together *)

(** X10: disposing a wrapper of the sequence frees the id of its provider.
    Before the disposal a registration with that id throws; right after it
    the same registration returns a new wrapper, different from the
    disposed one, and the disposed wrapper stays out of the sequence. *)
Theorem dispose_frees_the_id (s : State) (this : RepoRef) (o : ScmRepositoryImpl)
    (p : ScmProvider) :
  reachable s → this ∈ repositories_of s → objects s !! this = Some o →
  id p = id (provider o) →
  completion (registerScmProvider p s) = Throw (already_exists p)
  ∧ ∃ r s2 ev,
      registerScmProvider p (state_after (Repository.dispose this s))
      = (Return r, s2, ev)
      ∧ r ≠ this
      ∧ r ∈ repositories_of s2
      ∧ this ∉ repositories_of s2.
Proof.
  intros Hs Hin Ho Hid. apply reachable_by_wf in Hs as Hwf.
  pose proof (wf_lookup s Hwf) as Hl.
  split.
  - rewrite registerScmProvider_throws; [done|].
    rewrite Hid. by apply (listed_id_in_providerIds s this o).
  - rewrite (dispose_present s this o _ Ho Hl Hin). unfold state_after; simpl.
    pose proof (wf_unregistered s this o Hwf Ho Hin) as Hwf1.
    set (s1 := unregistered this (provider o) (repositories_of s) s) in *.
    pose proof (wf_lookup s1 Hwf1) as Hl1.
    assert (Hfree : id p ∉ providerIds s1).
    { simpl. rewrite Hid, elem_of_difference, elem_of_singleton. tauto. }
    assert (Hgone : this ∉ repositories_of s1).
    { unfold s1. rewrite repositories_of_unregistered.
      destruct (indexOf_present _ this Hin) as (i & Hi & Hli).
      rewrite Hi, Nat2Z.id.
      apply delete_NoDup_absent; [apply (wf_nodup s Hwf)|done]. }
    assert (Hne : fresh (dom (objects s1)) ≠ this).
    { intros Heq. pose proof (fresh_object_unused s1) as Hnone.
      rewrite Heq in Hnone. simpl in Hnone. congruence. }
    do 3 eexists. split; [apply (registerScmProvider_ok s1 p _ Hfree Hl1)|].
    split_and!; [done| |].
    + rewrite repositories_of_registered. apply elem_of_app. right.
      apply list_elem_of_here.
    + rewrite repositories_of_registered.
      intros [Hold|Hnew%list_elem_of_singleton]%elem_of_app; [done|].
      by apply Hne.
Qed.

Lemma dispose_frees_the_id_witness :
  let s := run [CallRegisterScmProvider provA; CallRegisterScmProvider provB]
               new_ScmService in
  completion (registerScmProvider provA' s) = Throw (already_exists provA')
  ∧ ∃ r s2 ev,
      registerScmProvider provA' (state_after (Repository.dispose 0 s))
      = (Return r, s2, ev)
      ∧ r ≠ 0.
Proof.
  intros s.
  destruct (dispose_frees_the_id s 0
              {| provider := provA; _selected := false; input := new_ScmInputImpl |}
              provA')
    as (Hthrow & r & s2 & ev & Hreg & Hne & _).
  - apply reachable_run; [apply reachable_new|vm_compute; reflexivity].
  - vm_compute. apply list_elem_of_here.
  - vm_compute. reflexivity.
  - reflexivity.
  - split; [exact Hthrow|]. exists r, s2, ev. split; assumption.
Defined.

Lemma delete_last_appended (l : list RepoRef) (r : RepoRef) :
  r ∉ l → delete (Z.to_nat (indexOf (l ++ [r]) r)) (l ++ [r]) = l.
Proof.
  intros Hr.
  assert (Hin : r ∈ l ++ [r]) by (apply elem_of_app; right; apply list_elem_of_here).
  destruct (indexOf_present _ r Hin) as (i & Hi & Hli).
  rewrite Hi, Nat2Z.id.
  assert (i = length l) as ->.
  { destruct (decide (i < length l)) as [Hlt|Hge].
    - rewrite lookup_app_l in Hli by done.
      exfalso. apply Hr. by eapply list_elem_of_lookup_2.
    - apply lookup_lt_Some in Hli. rewrite length_app in Hli. simpl in Hli. lia. }
  rewrite delete_take_drop, take_app_length.
  rewrite drop_ge by (rewrite length_app; simpl; lia).
  apply app_nil_r.
Qed.

(** X11: registering a provider and disposing the returned wrapper right
    away restores the registry: the sequence and the provider ids are as
    before the registration.  The selection is as before too unless the
    sequence was empty, in which case the disposed wrapper stays
    selected. *)
Theorem register_then_dispose_restores (s : State) (p : ScmProvider) :
  reachable s → id p ∉ providerIds s →
  ∃ r s1 ev1 s2 ev2,
    registerScmProvider p s = (Return r, s1, ev1)
    ∧ Repository.dispose r s1 = (Return tt, s2, ev2)
    ∧ repositories_of s2 = repositories_of s
    ∧ providerIds s2 = providerIds s
    ∧ (repositories_of s ≠ [] → _selectedRepository s2 = _selectedRepository s)
    ∧ (repositories_of s = [] → _selectedRepository s2 = Some r)
    ∧ ev2 = [OnDidRemoveRepository r; ProviderDisposed p].
Proof.
  intros Hs Hid. apply reachable_by_wf in Hs as Hwf.
  pose proof (wf_lookup s Hwf) as Hl.
  pose proof (fresh_object_not_listed s Hwf) as Hfresh.
  pose proof (wf_registered s p Hwf Hid) as Hwf1.
  set (l := repositories_of s) in *. set (r := fresh (dom (objects s))) in *.
  set (s1 := registered p l s) in *.
  assert (Ho1 : objects s1 !! r
                = Some {| provider := p; _selected := false;
                          input := new_ScmInputImpl |}).
  { simpl. apply lookup_insert_eq. }
  assert (Hl1 : arrays s1 !! _repositories s1 = Some (l ++ [r])).
  { simpl. apply lookup_insert_eq. }
  assert (Hin1 : r ∈ l ++ [r]) by (apply elem_of_app; right; apply list_elem_of_here).
  exists r, s1. do 3 eexists.
  split; [apply (registerScmProvider_ok s p l Hid Hl)|].
  split; [apply (dispose_present s1 r _ _ Ho1 Hl1 Hin1)|].
  split_and!.
  - rewrite repositories_of_unregistered. by apply delete_last_appended.
  - simpl. apply set_eq. intros x.
    rewrite elem_of_difference, elem_of_union, elem_of_singleton.
    split; [tauto|]. intros Hx. split; [by left|]. intros ->. done.
  - intros Hne. simpl. destruct l; done.
  - intros Hnil. simpl. fold l in Hnil. by rewrite Hnil.
  - reflexivity.
Qed.

Lemma register_then_dispose_restores_witness :
  let s := run [CallRegisterScmProvider provA] new_ScmService in
  ∃ r s1 ev1 s2 ev2,
    registerScmProvider provB s = (Return r, s1, ev1)
    ∧ Repository.dispose r s1 = (Return tt, s2, ev2)
    ∧ repositories_of s2 = [0]
    ∧ providerIds s2 = providerIds s.
Proof.
  intros s.
  destruct (register_then_dispose_restores s provB)
    as (r & s1 & ev1 & s2 & ev2 & Hreg & Hdis & Hrep & Hids & _).
  - apply reachable_run; [apply reachable_new|vm_compute; reflexivity].
  - vm_compute. intros H. discriminate H.
  - exists r, s1, ev1, s2, ev2. split_and!; [exact Hreg|exact Hdis| |exact Hids].
    rewrite Hrep. vm_compute. reflexivity.
Defined.

(** ** What changes the selection *)

Lemma registerScmProvider_dangling (s : State) (p : ScmProvider) :
  id p ∉ providerIds s → arrays s !! _repositories s = None →
  ∃ s', registerScmProvider p s = (Dangling, s', [])
        ∧ _selectedRepository s' = _selectedRepository s.
Proof.
  intros Hid Hl. unfold_methods. rewrite decide_False by done. simpl.
  rewrite Hl. by eexists.
Qed.

Lemma foldl_track_selection_none (evs : list Event) (v : option RepoRef) :
  Forall (λ e, ∀ v', e ≠ OnDidChangeSelectedRepositories v') evs →
  foldl track_selection v evs = v.
Proof.
  induction 1 as [|e evs He _ IH]; [done|]. simpl. rewrite <- IH at 2.
  f_equal. destruct e; try done. by destruct (He repository).
Qed.

Lemma call_selection_frame (s : State) (c : Call) :
  (∀ v, c ≠ CallSetSelectedRepository v) →
  (∀ p, c = CallRegisterScmProvider p → arrays s !! _repositories s ≠ Some []) →
  _selectedRepository (state_after (call c s)) = _selectedRepository s
  ∧ Forall (λ e, ∀ v, e ≠ OnDidChangeSelectedRepositories v) (emitted (call c s)).
Proof.
  intros Hset Hreg.
  destruct c as [p| | |v|r|r|r b|r|r v|r v|r b|r f]; simpl.
  - specialize (Hreg p eq_refl). unfold mbind, M_bind, bind, state_after, emitted.
    destruct (decide (id p ∈ providerIds s)) as [Hin|Hout].
    { rewrite registerScmProvider_throws by done. by split. }
    destruct (arrays s !! _repositories s) as [l|] eqn:Hl.
    + rewrite (registerScmProvider_ok s p l Hout Hl). simpl.
      destruct l as [|x l]; [done|]. split; [done|].
      repeat constructor. intros v. discriminate.
    + destruct (registerScmProvider_dangling s p Hout Hl) as (s' & -> & Hsel).
      by split.
  - unfold_methods. repeat (case_match; simplify_eq/=); by split.
  - by split.
  - by destruct (Hset v).
  - unfold_methods. repeat (case_match; simplify_eq/=); split; try done;
      repeat constructor; intros v; discriminate.
  - unfold_methods. repeat (case_match; simplify_eq/=); by split.
  - unfold_methods. repeat (case_match; simplify_eq/=); split; try done;
      repeat constructor; intros v; discriminate.
  - unfold_methods. repeat (case_match; simplify_eq/=); split; try done;
      repeat constructor; intros v; discriminate.
  - unfold_methods. repeat (case_match; simplify_eq/=); split; try done.
    apply Forall_fmap, Forall_true. intros e v'. discriminate.
  - unfold_methods. repeat (case_match; simplify_eq/=); split; try done.
    repeat constructor; intros v'; discriminate.
  - unfold_methods. repeat (case_match; simplify_eq/=); split; try done.
    repeat constructor; intros v'; discriminate.
  - unfold_methods. repeat (case_match; simplify_eq/=); split; try done.
    repeat constructor; intros v'; discriminate.
Qed.

(** X12: the selected repository changes in two ways only: by the
    selection setter, and by a registration into an empty sequence.  Every
    other call, disposing the selected wrapper included, leaves it as it
    was and emits no [OnDidChangeSelectedRepositories]. *)
Theorem selection_changes_only_by_setter_or_first_registration
    (s : State) (c : Call) :
  (∀ v, c ≠ CallSetSelectedRepository v) →
  (∀ p, c = CallRegisterScmProvider p → arrays s !! _repositories s ≠ Some []) →
  _selectedRepository (state_after (call c s)) = _selectedRepository s
  ∧ Forall (λ e, ∀ v, e ≠ OnDidChangeSelectedRepositories v) (emitted (call c s)).
Proof. apply call_selection_frame. Qed.

Lemma selection_changes_only_by_setter_or_first_registration_witness :
  let s := run [CallRegisterScmProvider provA] new_ScmService in
  _selectedRepository s = Some 0
  ∧ _selectedRepository (state_after (call (CallDispose 0) s)) = Some 0
  ∧ repositories_of (state_after (call (CallDispose 0) s)) = [].
Proof.
  intros s.
  assert (Hsel : _selectedRepository s = Some 0) by (vm_compute; reflexivity).
  split_and!; [exact Hsel| |vm_compute; reflexivity].
  rewrite <- Hsel.
  apply (selection_changes_only_by_setter_or_first_registration s (CallDispose 0)).
  - intros v. discriminate.
  - intros p. discriminate.
Defined.

Lemma call_tracks_selection (s : State) (c : Call) :
  foldl track_selection (_selectedRepository s) (emitted (call c s))
  = _selectedRepository (state_after (call c s)).
Proof.
  assert (Hframe : ∀ c',
    (∀ v, c' ≠ CallSetSelectedRepository v) →
    (∀ p, c' = CallRegisterScmProvider p → arrays s !! _repositories s ≠ Some []) →
    foldl track_selection (_selectedRepository s) (emitted (call c' s))
    = _selectedRepository (state_after (call c' s))).
  { intros c' Hset Hreg. destruct (call_selection_frame s c' Hset Hreg) as [Hsel Hev].
    rewrite Hsel. by apply foldl_track_selection_none. }
  destruct c as [p| | |v|r|r|r b|r|r v|r v|r b|r f];
    try (apply Hframe; [intros ?; discriminate|intros ?; discriminate]).
  - destruct (decide (arrays s !! _repositories s = Some [])) as [Hl|Hl].
    + simpl. unfold mbind, M_bind, bind, state_after, emitted.
      destruct (decide (id p ∈ providerIds s)) as [Hin|Hout].
      * by rewrite registerScmProvider_throws.
      * by rewrite (registerScmProvider_ok s p [] Hout Hl).
    + apply Hframe; [intros ?; discriminate|done].
  - reflexivity.
Qed.

(** X13: a listener that keeps the last payload of
    [OnDidChangeSelectedRepositories] always holds the selected
    repository: over any list of calls from any state, folding the emitted
    notifications over the selection of the start gives the selection of
    the end. *)
Theorem listener_tracks_selection (cs : list Call) (s : State) :
  foldl track_selection (_selectedRepository s) (run_events cs s)
  = _selectedRepository (run cs s).
Proof.
  revert s. induction cs as [|c cs IH]; intros s; simpl; [done|].
  by rewrite foldl_app, call_tracks_selection, IH.
Qed.

(** ** What a listener of additions and removals sees *)

Lemma call_tracks_sequence (s : State) (c : Call) :
  wf s → well_typed s c →
  foldl track_sequence (repositories_of s) (emitted (call c s))
  = repositories_of (state_after (call c s)).
Proof.
  intros Hwf Hc. pose proof (wf_lookup s Hwf) as Hl.
  assert (Hobj : ∀ r, r ∈ refs_of c → ∃ o, objects s !! r = Some o).
  { intros r Hr. destruct (Hc r Hr) as [o Ho]. eauto. }
  destruct c as [p| | |v|r|r|r b|r|r v|r v|r b|r f]; simpl in *.
  - unfold mbind, M_bind, bind, state_after, emitted.
    destruct (decide (id p ∈ providerIds s)) as [Hin|Hout].
    + by rewrite registerScmProvider_throws.
    + rewrite (registerScmProvider_ok s p _ Hout Hl). simpl.
      rewrite repositories_of_registered. by destruct (repositories_of s).
  - unfold mbind, M_bind, bind, state_after, emitted.
    rewrite (get_repositories_eq s _ Hl). simpl.
    unfold repositories_of at 2; simpl. rewrite lookup_insert_ne; [done|].
    intros Heq. pose proof (is_fresh (dom (arrays s))) as Hfresh.
    rewrite Heq in Hfresh. apply Hfresh, elem_of_dom. by eexists.
  - done.
  - done.
  - destruct (Hobj r) as [o Ho]; [by apply list_elem_of_singleton|].
    unfold Repository.focus, deref. unfold_monad. by rewrite Ho.
  - destruct (Hobj r) as [o Ho]; [by apply list_elem_of_singleton|].
    unfold mbind, M_bind, bind, state_after, emitted.
    by rewrite (get_selected_eq s r o Ho).
  - destruct (Hobj r) as [o Ho]; [by apply list_elem_of_singleton|].
    by rewrite (setSelected_eq s r o b Ho).
  - destruct (Hobj r) as [o Ho]; [by apply list_elem_of_singleton|].
    destruct (decide (r ∈ repositories_of s)) as [Hin|Hout].
    + rewrite (dispose_present s r o _ Ho Hl Hin). unfold state_after, emitted; simpl.
      rewrite repositories_of_unregistered.
      destruct (indexOf_present _ r Hin) as (i & Hi & Hli).
      rewrite Hi, Nat2Z.id. symmetry.
      apply delete_is_filter; [apply (wf_nodup s Hwf)|done].
    + by rewrite (dispose_absent s r o _ Ho Hl Hout).
  - destruct (Hobj r) as [o Ho]; [by apply list_elem_of_singleton|].
    rewrite (on_input_eq s r o _ Ho). unfold state_after, emitted; simpl.
    by induction (Input.set_value v (input o)).2.
  - destruct (Hobj r) as [o Ho]; [by apply list_elem_of_singleton|].
    by rewrite (on_input_eq s r o _ Ho).
  - destruct (Hobj r) as [o Ho]; [by apply list_elem_of_singleton|].
    by rewrite (on_input_eq s r o _ Ho).
  - destruct (Hobj r) as [o Ho]; [by apply list_elem_of_singleton|].
    by rewrite (on_input_eq s r o _ Ho).
Qed.

Lemma run_wf (cs : list Call) (s : State) :
  wf s → run_well_typed cs s = true → wf (run cs s).
Proof.
  revert s. induction cs as [|c cs IH]; intros s Hwf Hcs; simpl in *; [done|].
  apply andb_true_iff in Hcs as [Hc Hcs]. apply IH; [|done].
  apply call_wf; [done|by apply is_object_well_typed].
Qed.

(** X14: a listener that appends on [OnDidAddRepository] and removes on
    [OnDidRemoveRepository] always holds the registry's sequence, in
    order: over any list of calls from a reachable state, folding the
    emitted notifications over the sequence of the start gives the
    sequence of the end. *)
Theorem listener_tracks_sequence (cs : list Call) (s : State) :
  reachable s → run_well_typed cs s = true →
  foldl track_sequence (repositories_of s) (run_events cs s)
  = repositories_of (run cs s).
Proof.
  intros Hs. apply reachable_by_wf in Hs as Hwf. clear Hs.
  revert s Hwf. induction cs as [|c cs IH]; intros s Hwf Hcs; simpl in *; [done|].
  apply andb_true_iff in Hcs as [Hc Hcs].
  apply is_object_well_typed in Hc.
  rewrite foldl_app, call_tracks_sequence by done.
  apply IH; [by apply call_wf|done].
Qed.

Lemma listener_tracks_sequence_witness :
  let cs := [CallRegisterScmProvider provA; CallRegisterScmProvider provB;
             CallSetValue 0 "fix"; CallDispose 0; CallDispose 0;
             CallRegisterScmProvider provA'] in
  foldl track_sequence [] (run_events cs new_ScmService) = [1; 2]
  ∧ repositories_of (run cs new_ScmService) = [1; 2].
Proof.
  intros cs.
  assert (Hrep : repositories_of (run cs new_ScmService) = [1; 2])
    by (vm_compute; reflexivity).
  split; [|exact Hrep]. rewrite <- Hrep.
  apply (listener_tracks_sequence cs new_ScmService).
  - apply reachable_new.
  - vm_compute. reflexivity.
Defined.

(** ** Disposal is final *)

Lemma call_adds_only_new (s : State) (c : Call) (x : RepoRef) :
  wf s → well_typed s c →
  x ∈ repositories_of (state_after (call c s)) →
  x ∈ repositories_of s ∨ objects s !! x = None.
Proof.
  intros Hwf Hc. pose proof (wf_lookup s Hwf) as Hl.
  rewrite <- (call_tracks_sequence s c Hwf Hc).
  assert (Hev : Forall (λ e, ∀ r, e = OnDidAddRepository r → objects s !! r = None)
                       (emitted (call c s))).
  { destruct c as [p| | |v|r|r|r b|r|r v|r v|r b|r f]; simpl.
    - unfold mbind, M_bind, bind, emitted.
      destruct (decide (id p ∈ providerIds s)) as [Hin|Hout].
      + by rewrite registerScmProvider_throws.
      + rewrite (registerScmProvider_ok s p _ Hout Hl). simpl.
        rewrite app_nil_r. apply Forall_cons. split.
        * intros r [= <-]. apply fresh_object_unused.
        * destruct (repositories_of s); repeat constructor; intros r; discriminate.
    - unfold mbind, M_bind, bind, emitted.
      by rewrite (get_repositories_eq s _ Hl).
    - done.
    - repeat constructor. intros r. discriminate.
    - unfold_methods. repeat (case_match; simplify_eq/=); repeat constructor;
        intros ?; discriminate.
    - unfold_methods. repeat (case_match; simplify_eq/=); repeat constructor.
    - unfold_methods. repeat (case_match; simplify_eq/=); repeat constructor;
        intros ?; discriminate.
    - unfold_methods. repeat (case_match; simplify_eq/=); repeat constructor;
        intros ?; discriminate.
    - unfold_methods. repeat (case_match; simplify_eq/=); try done;
        apply Forall_fmap, Forall_true; intros e r'; discriminate.
    - unfold_methods. repeat (case_match; simplify_eq/=); repeat constructor;
        intros ?; discriminate.
    - unfold_methods. repeat (case_match; simplify_eq/=); repeat constructor;
        intros ?; discriminate.
    - unfold_methods. repeat (case_match; simplify_eq/=); repeat constructor;
        intros ?; discriminate. }
  revert Hev. generalize (repositories_of s) as l.
  induction (emitted (call c s)) as [|e evs IH]; intros l Hev Hx; simpl in *.
  - by left.
  - apply Forall_cons in Hev as [He Hev].
    destruct (IH _ Hev Hx) as [Hin|Hnone]; [|by right].
    destruct e; simpl in Hin; try (by left).
    + apply elem_of_app in Hin as [Hin|Hin%list_elem_of_singleton]; [by left|].
      right. subst. by apply He.
    + apply list_elem_of_filter in Hin as [_ Hin]. by left.
Qed.

Lemma call_keeps_objects (s : State) (c : Call) (r : RepoRef) (o : ScmRepositoryImpl) :
  objects s !! r = Some o → is_Some (objects (state_after (call c s)) !! r).
Proof.
  intros Ho.
  assert (Hother : (∀ b, c ≠ CallSetSelected r b) →
                   is_Some (objects (state_after (call c s)) !! r)).
  { intros Hne. destruct (call_keeps_flags s c r o Ho Hne) as (o' & Ho' & _).
    by eexists. }
  destruct c as [p| | |v|r'|r'|r' b|r'|r' v|r' v|r' b|r' f];
    try (apply Hother; intros ?; discriminate).
  destruct (decide (r' = r)) as [->|Hr].
  - simpl. rewrite (setSelected_eq s r o b Ho). simpl.
    rewrite lookup_insert_eq. by eexists.
  - apply Hother. intros b' [= ?]. done.
Qed.

(** X15: disposal is final.  A wrapper that exists and is not in the
    sequence never comes back into it, whatever calls follow: a
    registration always builds a new wrapper, also for the same
    provider. *)
Theorem disposed_wrapper_never_returns (cs : list Call) (s : State)
    (this : RepoRef) :
  reachable s → run_well_typed cs s = true →
  is_Some (objects s !! this) → this ∉ repositories_of s →
  this ∉ repositories_of (run cs s).
Proof.
  intros Hs. apply reachable_by_wf in Hs as Hwf. clear Hs.
  revert s Hwf. induction cs as [|c cs IH]; intros s Hwf Hcs [o Ho] Hout;
    simpl in *; [done|].
  apply andb_true_iff in Hcs as [Hc Hcs].
  apply is_object_well_typed in Hc.
  apply IH; [by apply call_wf|done| |].
  - by apply (call_keeps_objects s c this o).
  - intros Hin. destruct (call_adds_only_new s c this Hwf Hc Hin); [done|congruence].
Qed.

Lemma disposed_wrapper_never_returns_witness :
  let s := run [CallRegisterScmProvider provA; CallDispose 0] new_ScmService in
  0 ∉ repositories_of
        (run [CallRegisterScmProvider provA; CallSetSelectedRepository (Some 0);
              CallDispose 0; CallRegisterScmProvider provB] s).
Proof.
  intros s. apply disposed_wrapper_never_returns.
  - apply reachable_run; [apply reachable_new|vm_compute; reflexivity].
  - vm_compute. reflexivity.
  - vm_compute. by eexists.
  - vm_compute. intros H. inversion H.
Defined.

(** ** Wrapper methods and the registry *)

(** X16: the methods of a wrapper and of its input model ([focus], the
    [selected] getter, [setSelected] and the four input setters) never
    touch the registry: provider ids, sequence, selection and all arrays
    are as before, no registry notification is emitted, nothing is thrown,
    every other wrapper is unchanged and the wrapper keeps its provider. *)
Theorem wrapper_calls_leave_registry (s : State) (c : Call) :
  is_wrapper_call c = true →
  providerIds (state_after (call c s)) = providerIds s
  ∧ _repositories (state_after (call c s)) = _repositories s
  ∧ _selectedRepository (state_after (call c s)) = _selectedRepository s
  ∧ arrays (state_after (call c s)) = arrays s
  ∧ filter is_registry_notification (emitted (call c s)) = []
  ∧ (∀ e, completion (call c s) ≠ Throw e)
  ∧ (∀ r, r ∉ refs_of c →
          objects (state_after (call c s)) !! r = objects s !! r)
  ∧ (∀ r o, objects s !! r = Some o →
            ∃ o', objects (state_after (call c s)) !! r = Some o'
                  ∧ provider o' = provider o).
Proof.
  intros Hc.
  destruct c as [p| | |v|r|r|r b|r|r v|r v|r b|r f]; try discriminate Hc; simpl.
  all: unfold_input_methods; unfold_methods.
  all: repeat (case_match; simplify_eq/=).
  all: split_and!; try done.
  all: try (intros r' Hr'; apply lookup_insert_ne; intros ->; apply Hr';
            apply list_elem_of_here).
  all: intros r' o' Ho'; destruct (decide (r = r')) as [->|Hne];
    simplify_map_eq; eauto.
Qed.

Lemma wrapper_calls_leave_registry_witness :
  let s := run [CallRegisterScmProvider provA; CallRegisterScmProvider provB]
               new_ScmService in
  repositories_of (state_after (call (CallSetValue 1 "message") s)) = [0; 1]
  ∧ objects (state_after (call (CallSetValue 1 "message") s)) !! 0
    = objects s !! 0.
Proof.
  intros s.
  destruct (wrapper_calls_leave_registry s (CallSetValue 1 "message") eq_refl)
    as (_ & Hrep & _ & Harr & _ & _ & Hother & _).
  split.
  - unfold repositories_of. rewrite Hrep, Harr. vm_compute. reflexivity.
  - apply Hother. vm_compute. intros H. inversion H as [|? ? ? H']. inversion H'.
Defined.

(** X17: assigning [input.value] of a wrapper through the registry's store
    behaves as on the input model alone and stays with that wrapper: the
    wrapper's input holds the value afterwards, its flag, provider and the
    other input fields are as before, and the notifications are those of
    the input model, tagged with the wrapper: none when the value was
    already stored, one [OnDidChange] otherwise. *)
Theorem wrapper_input_value (s : State) (this : RepoRef) (o : ScmRepositoryImpl)
    (v : string) :
  objects s !! this = Some o →
  ∃ o',
    objects (state_after (call (CallSetValue this v) s)) !! this = Some o'
    ∧ _value (input o') = v
    ∧ _placeholder (input o') = _placeholder (input o)
    ∧ _visible (input o') = _visible (input o)
    ∧ _validateInput (input o') = _validateInput (input o)
    ∧ _selected o' = _selected o ∧ provider o' = provider o
    ∧ completion (call (CallSetValue this v) s) = Return tt
    ∧ emitted (call (CallSetValue this v) s)
      = (if String.eqb (_value (input o)) v then []
         else [OnInput this (OnDidChange v)]).
Proof.
  intros Ho. simpl. rewrite (on_input_eq s this o _ Ho).
  unfold state_after, completion, emitted; simpl. rewrite lookup_insert_eq.
  eexists. split; [reflexivity|].
  destruct (String.eqb_spec (_value (input o)) v) as [Heq|Hne].
  - rewrite (set_value_same (input o) v) by done. simpl. by split_and!.
  - rewrite (set_value_other (input o) v) by done. simpl. by split_and!.
Qed.

Lemma wrapper_input_value_witness :
  let s := run [CallRegisterScmProvider provA] new_ScmService in
  ∃ o',
    objects (state_after (call (CallSetValue 0 "fix typo") s)) !! 0 = Some o'
    ∧ _value (input o') = "fix typo"%string
    ∧ emitted (call (CallSetValue 0 "fix typo") s)
      = [OnInput 0 (OnDidChange "fix typo")].
Proof.
  intros s.
  destruct (wrapper_input_value s 0
              {| provider := provA; _selected := false; input := new_ScmInputImpl |}
              "fix typo")
    as (o' & Ho' & Hv & _ & _ & _ & _ & _ & _ & Hev).
  - vm_compute. reflexivity.
  - exists o'. split_and!; [exact Ho'|exact Hv|exact Hev].
Defined.
